(** * QForte state-vector simulator: Basis, QuantumComputer

    Shallow embedding of [src/qforte/quantum_computer.cc] and the
    properties its specification states about it.

    Conventions of the embedding.
    - Machine integers are values of [Z].  [basis_t] and [size_t] are
      64-bit unsigned, [int] is 32-bit signed (the LP64 data model); a
      left shift of a [basis_t] wraps modulo [2^64], and an [int]
      expression whose value leaves the range of [int] has no defined
      result.
    - A C++ operation with undefined behaviour (an out-of-range vector
      subscript, an overflowing [int] expression, an out-of-range
      conversion) evaluates to [None]; every method that may reach one
      returns an [option].
    - A method that mutates its receiver maps the receiver's state to its
      new state; a [const] method is a function of the receiver.
    - Amplitudes ([std::complex<double>]) are an abstract carrier with a
      zero, a one, an addition and a multiplication; no algebraic law is
      assumed unless a statement lists it. *)

From Stdlib Require Import Ascii.
From stdpp Require Import base option numbers list list_numbers strings.

Local Open Scope Z_scope.

(** ** Machine integers *)

(** Modelled from the spec: the type [basis_t] is declared in a header that
    is not part of the sources.  The spec calls it "an unsigned integer";
    it is taken as wide as [size_t], from which and to which the code
    converts it ([Basis(i)], [add()]). *)
Definition basis_bits : Z := 64.

(** The width of [int] and its largest value. *)
Definition int_bits : Z := 32.
Definition INT_MAX : Z := 2 ^ (int_bits - 1) - 1.

(** Conversion of a non-negative value to [basis_t] (and the wrap-around of
    unsigned arithmetic). *)
Definition wrap_basis (z : Z) : Z := z mod 2 ^ basis_bits.

(** [a << n] on operands of type [int]: defined when the shift count is
    below the width of [int], [a] is non-negative and the result is
    representable.  (Since C++20 [1 << 31] is itself defined and yields
    [INT_MIN]; in the one expression that uses the shift here,
    [(1 << pos) - 1], the decrement then overflows instead.) *)
Definition int_shl (a n : Z) : option Z :=
  if bool_decide (0 ≤ n < int_bits ∧ 0 ≤ a ∧ a * 2 ^ n ≤ INT_MAX)
  then Some (Z.shiftl a n) else None.

(** [a - b] on operands of type [int]. *)
Definition int_sub (a b : Z) : option Z :=
  if bool_decide (- INT_MAX - 1 ≤ a - b ≤ INT_MAX) then Some (a - b) else None.

(** [for (x : l) body] over a state that every iteration may update or
    abort. *)
Fixpoint for_each {A S : Type} (l : list A) (body : A → S → option S) (s : S)
    : option S :=
  match l with
  | [] => Some s
  | x :: l' => s' ← body x s; for_each l' body s'
  end.

(** ** Basis *)

Module Basis.

(** Modelled from the spec: the class [Basis] is declared in a header that
    is not part of the sources.  Its one attribute is "state_, an unsigned
    integer whose bit i is qubit i's value"; [mk n] is [Basis(n)]. *)
Record t : Type := mk { state_ : Z }.

(** Modelled from the spec: [get_bit(i)], defined in the missing header,
    "returns bit i of state_ (0 or 1)". *)
Definition get_bit (pos : Z) (b : t) : bool := Z.testbit (state_ b) pos.

(** Modelled from the spec: [set_bit(i, value)], defined in the missing
    header, "sets bit i to 0 or 1, leaving all other bits unchanged".  The
    callers discard what it returns and go on with the receiver, so it
    mutates its receiver; the result here is the receiver afterwards. *)
Definition set_bit (pos : Z) (val : bool) (b : t) : t :=
  mk (if val then Z.setbit (state_ b) pos else Z.clearbit (state_ b) pos).

(** Modelled from the spec: [add()], defined in the missing header,
    "returns the integer index equal to state_". *)
Definition add (b : t) : Z := state_ b.

(** [Basis& Basis::insert(size_t pos)].  The method overwrites [state_]
    and returns [*this]: the result is the receiver afterwards, which is
    also the object the returned reference denotes. *)
Definition insert (pos : Z) (b : t) : option t :=
  let temp := state_ b in
  let state1 := wrap_basis (Z.shiftl (state_ b) 1) in
  one_shl ← int_shl 1 pos;
  mask_int ← int_sub one_shl 1;
  let mask := wrap_basis mask_int in
  Some (mk (Z.lxor state1 (Z.land (Z.lxor state1 temp) mask))).

(** [std::string Basis::str(size_t nqubit) const].  The loop counter is
    an [int] compared against the [size_t] bound, so the increment is
    defined for every iteration only while [nqubit ≤ INT_MAX]. *)
Definition str (nqubit : Z) (b : t) : option string :=
  if bool_decide (nqubit ≤ INT_MAX) then
    let s := "|"%string in
    let s := foldl (λ s i, if get_bit i b then s +:+ "1" else s +:+ "0")
                   s (seqZ 0 nqubit) in
    Some (s +:+ ">")
  else None.

End Basis.

(** ** Amplitudes, gates and circuits *)

(** The operations of [double_c = std::complex<double>] the simulator uses:
    the constants [0.0] and [1.], [+] (through [+=]) and [*]. *)
Class Amplitude (C : Type) : Type := {
  C0 : C;
  C1 : C;
  Cadd : C → C → C;
  Cmul : C → C → C
}.

(** What [QuantumComputer::str] needs of the amplitudes and cannot be
    computed here: the test [std::abs(c) >= print_threshold_] on doubles
    and the formatting of a term by [fmt::format]. *)
Class Printing (C : Type) : Type := {
  threshold : Type;
  abs_ge : C → threshold → bool;
  format_term : C → string → string
}.

Module QuantumGate.

(** Modelled from the spec: the class [QuantumGate] is declared outside
    the sources.  It "supplies a gate's 2×2 or 4×4 complex matrix and the
    target/control qubit indices it acts on" and its "qubit arity". *)
Record t (C : Type) : Type := mk {
  nqubits : Z;
  target : Z;
  control : Z;
  gate : Z → Z → C
}.
Global Arguments mk {C} _ _ _ _.
Global Arguments nqubits {C} _.
Global Arguments target {C} _.
Global Arguments control {C} _.
Global Arguments gate {C} _ _ _.

(** Modelled from the spec: [QuantumGate::two_qubits_basis()], "binary
    counting with control as the higher-order bit: 00,01,10,11"; each
    entry is a (control-bit, target-bit) pair. *)
Definition two_qubits_basis : list (Z * Z) := [(0, 0); (0, 1); (1, 0); (1, 1)].

End QuantumGate.

(** Modelled from the spec: [QuantumCircuit] is "an ordered sequence of
    gates, insertion order is execution order". *)
Record QuantumCircuit (C : Type) : Type := mkCircuit {
  gates : list (QuantumGate.t C)
}.
Global Arguments mkCircuit {C} _.
Global Arguments gates {C} _.

(** ** Vectors *)

(** [v[i]] read on a [std::vector]: no bounds check, undefined out of
    range. *)
Definition vec_at {A : Type} (v : list A) (i : Z) : option A :=
  if bool_decide (0 ≤ i) then v !! Z.to_nat i else None.

(** [v[i] = x]. *)
Definition vec_set {A : Type} (v : list A) (i : Z) (x : A) : option (list A) :=
  if bool_decide (0 ≤ i < Z.of_nat (length v)) then Some (<[Z.to_nat i := x]> v)
  else None.

(** [std::fill(v.begin(), v.end(), x)]. *)
Definition vec_fill {A : Type} (v : list A) (x : A) : list A :=
  replicate (length v) x.

(** [std::pow(2, n)] converted to [size_t]: a negative exponent gives a
    value below one that truncates to zero; [2^n] for [n ≥ 64] is outside
    the range of [size_t] and the conversion is undefined. *)
Definition pow2_size_t (n : Z) : option Z :=
  if bool_decide (n < 0) then Some 0
  else if bool_decide (n < basis_bits) then Some (2 ^ n)
  else None.

(** ** QuantumComputer *)

(** The members the methods read and write ([nqubit_] is an [int],
    [nbasis_] a [size_t]). *)
Record QuantumComputer (C : Type) : Type := mkQC {
  nqubit_ : Z;
  nbasis_ : Z;
  basis_ : list Basis.t;
  coeff_ : list C;
  new_coeff_ : list C
}.
Global Arguments mkQC {C} _ _ _ _ _.
Global Arguments nqubit_ {C} _.
Global Arguments nbasis_ {C} _.
Global Arguments basis_ {C} _.
Global Arguments coeff_ {C} _.
Global Arguments new_coeff_ {C} _.

Definition set_basis {C} (v : list Basis.t) (qc : QuantumComputer C) :=
  mkQC (nqubit_ qc) (nbasis_ qc) v (coeff_ qc) (new_coeff_ qc).
Definition set_coeff {C} (v : list C) (qc : QuantumComputer C) :=
  mkQC (nqubit_ qc) (nbasis_ qc) (basis_ qc) v (new_coeff_ qc).
Definition set_new_coeff {C} (v : list C) (qc : QuantumComputer C) :=
  mkQC (nqubit_ qc) (nbasis_ qc) (basis_ qc) (coeff_ qc) v.

(** Conversion of a [size_t] to [bool] (argument of [set_bit]) and
    comparison of a [bool] with a [size_t] (the filter tests). *)
Definition to_bool (z : Z) : bool := bool_decide (z ≠ 0).
Definition bool_eq_size_t (b : bool) (z : Z) : bool := bool_decide (Z.b2z b = z).

Section QuantumComputer.
Context {C : Type} `{Amplitude C}.

(** [QuantumComputer::QuantumComputer(int nqubit)]. *)
Definition QuantumComputer_new (nqubit : Z) : option (QuantumComputer C) :=
  nbasis ← pow2_size_t nqubit;
  let qc := mkQC nqubit nbasis
              (replicate (Z.to_nat nbasis) (Basis.mk 0))
              (replicate (Z.to_nat nbasis) C0)
              (replicate (Z.to_nat nbasis) C0) in
  qc ← for_each (seqZ 0 nbasis)
         (λ i qc, v ← vec_set (basis_ qc) i (Basis.mk i); Some (set_basis v qc)) qc;
  v ← vec_set (coeff_ qc) 0 C1;
  Some (set_coeff v qc).

(** [QuantumComputer::coeff(const Basis&)]. *)
Definition coeff (basis : Basis.t) (qc : QuantumComputer C) : option C :=
  vec_at (coeff_ qc) (Basis.add basis).

(** [QuantumComputer::set_state]. *)
Definition set_state (state : list (Basis.t * C)) (qc : QuantumComputer C)
    : option (QuantumComputer C) :=
  let qc := set_coeff (vec_fill (coeff_ qc) C0) qc in
  for_each state
    (λ basis_c qc, v ← vec_set (coeff_ qc) (Basis.add basis_c.1) basis_c.2;
                   Some (set_coeff v qc)) qc.

(** The statement [new_coeff_[basis_I.add()] += op_i_j * coeff_[basis_J.add()]]
    shared by the three gate routines. *)
Definition accumulate (basis_I basis_J : Basis.t) (op_i_j : C)
    (qc : QuantumComputer C) : option (QuantumComputer C) :=
  cJ ← vec_at (coeff_ qc) (Basis.add basis_J);
  nI ← vec_at (new_coeff_ qc) (Basis.add basis_I);
  v ← vec_set (new_coeff_ qc) (Basis.add basis_I) (Cadd nI (Cmul op_i_j cJ));
  Some (set_new_coeff v qc).

(** [QuantumComputer::apply_1qubit_gate]. *)
Definition apply_1qubit_gate (qg : QuantumGate.t C) (qc : QuantumComputer C)
    : option (QuantumComputer C) :=
  let target := QuantumGate.target qg in
  let gate := QuantumGate.gate qg in
  for_each (seqZ 0 2) (λ i qc,
    for_each (seqZ 0 2) (λ j qc,
      let op_i_j := gate i j in
      for_each (basis_ qc) (λ basis_J qc,
        if bool_eq_size_t (Basis.get_bit target basis_J) j then
          let basis_I := basis_J in
          let basis_I := Basis.set_bit target (to_bool i) basis_I in
          accumulate basis_I basis_J op_i_j qc
        else Some qc) qc) qc) qc.

(** [QuantumComputer::apply_1qubit_gate_insertion]. *)
Definition apply_1qubit_gate_insertion (qg : QuantumGate.t C)
    (qc : QuantumComputer C) : option (QuantumComputer C) :=
  let target := QuantumGate.target qg in
  let gate := QuantumGate.gate qg in
  nbasis_minus1 ← pow2_size_t (nqubit_ qc - 1);
  for_each (seqZ 0 2) (λ i qc,
    for_each (seqZ 0 2) (λ j qc,
      let op_i_j := gate i j in
      for_each (seqZ 0 nbasis_minus1) (λ K qc,
        let basis_K := Basis.mk K in
        basis_K ← Basis.insert target basis_K;
        let basis_J := basis_K in
        let basis_I := basis_J in
        let basis_I := Basis.set_bit target (to_bool i) basis_I in
        let basis_J := Basis.set_bit target (to_bool j) basis_J in
        accumulate basis_I basis_J op_i_j qc) qc) qc) qc.

(** [QuantumComputer::apply_2qubit_gate]. *)
Definition apply_2qubit_gate (qg : QuantumGate.t C) (qc : QuantumComputer C)
    : option (QuantumComputer C) :=
  let two_qubits_basis := QuantumGate.two_qubits_basis in
  let target := QuantumGate.target qg in
  let control := QuantumGate.control qg in
  let gate := QuantumGate.gate qg in
  for_each (seqZ 0 4) (λ i qc,
    '(i_c, i_t) ← vec_at two_qubits_basis i;
    for_each (seqZ 0 4) (λ j qc,
      '(j_c, j_t) ← vec_at two_qubits_basis j;
      let op_i_j := gate i j in
      for_each (basis_ qc) (λ basis_J qc,
        if bool_eq_size_t (Basis.get_bit control basis_J) j_c
           && bool_eq_size_t (Basis.get_bit target basis_J) j_t then
          let basis_I := basis_J in
          let basis_I := Basis.set_bit control (to_bool i_c) basis_I in
          let basis_I := Basis.set_bit target (to_bool i_t) basis_I in
          accumulate basis_I basis_J op_i_j qc
        else Some qc) qc) qc) qc.

(** [QuantumComputer::apply_gate]. *)
Definition apply_gate (qg : QuantumGate.t C) (qc : QuantumComputer C)
    : option (QuantumComputer C) :=
  let nqubits := QuantumGate.nqubits qg in
  qc ← (if bool_decide (nqubits = 1) then apply_1qubit_gate qg qc else Some qc);
  let qc := set_coeff (new_coeff_ qc) qc in
  Some (set_new_coeff (vec_fill (new_coeff_ qc) C0) qc).

(** [QuantumComputer::apply_circuit]. *)
Definition apply_circuit (qc_ : QuantumCircuit C) (qc : QuantumComputer C)
    : option (QuantumComputer C) :=
  for_each (gates qc_) (λ gate qc, apply_gate gate qc) qc.

(** [QuantumComputer::str() const]; [print_threshold_] is read, never
    written, and the [int] [nqubit_] is converted to the [size_t] that
    [Basis::str] takes. *)
Definition str `{Printing C} (print_threshold_ : threshold)
    (qc : QuantumComputer C) : option (list string) :=
  for_each (seqZ 0 (nbasis_ qc)) (λ i terms,
    c ← vec_at (coeff_ qc) i;
    if abs_ge c print_threshold_ then
      b ← vec_at (basis_ qc) i;
      s ← Basis.str (wrap_basis (nqubit_ qc)) b;
      Some (terms ++ [format_term c s])
    else Some terms) [].

End QuantumComputer.

(** ** A concrete instance: integer amplitudes *)

#[export] Instance Z_amplitude : Amplitude Z :=
  {| C0 := 0; C1 := 1; Cadd := Z.add; Cmul := Z.mul |}.

(** Magnitude test [|c| ≥ threshold] on integers; a term is shown as its
    ket alone. *)
#[export] Instance Z_printing : Printing Z :=
  {| threshold := Z; abs_ge := λ c thr, bool_decide (thr ≤ Z.abs c);
     format_term := λ c s, s |}.

(** The bit-flip gate on qubit [t] and a gate with four distinct entries. *)
Definition X_gate (t : Z) : QuantumGate.t Z :=
  QuantumGate.mk 1 t 0 (λ i j, if bool_decide (i = j) then 0 else 1).
Definition M_gate (t : Z) : QuantumGate.t Z :=
  QuantumGate.mk 1 t 0 (λ i j, 2 * i + j + 2).
Definition CX_gate (c t : Z) : QuantumGate.t Z :=
  QuantumGate.mk 2 t c (λ i j, 4 * i + j + 1).

(** A two-qubit register in a state with four distinct amplitudes, its
    scratch buffer clean. *)
Definition qc_example : QuantumComputer Z :=
  mkQC 2 4 (Basis.mk <$> seqZ 0 4) [1; 10; 100; 1000] [0; 0; 0; 0].

#[global] Instance Basis_eq_dec : EqDecision Basis.t.
Proof. solve_decision. Defined.

(** ** Vocabulary of the statements *)

Section Vocabulary.
Context {C : Type} `{Amplitude C}.

(** The class invariant: the three arrays have [2^N] entries and
    [basis_[i]] is [Basis(i)]. *)
Definition wf (qc : QuantumComputer C) : Prop :=
  0 ≤ nqubit_ qc < basis_bits ∧
  nbasis_ qc = 2 ^ nqubit_ qc ∧
  basis_ qc = Basis.mk <$> seqZ 0 (nbasis_ qc) ∧
  length (coeff_ qc) = Z.to_nat (nbasis_ qc) ∧
  length (new_coeff_ qc) = Z.to_nat (nbasis_ qc).

(** Between two gate applications the scratch buffer holds zeros. *)
Definition scratch_clean (qc : QuantumComputer C) : Prop :=
  new_coeff_ qc = replicate (Z.to_nat (nbasis_ qc)) C0.

(** Everything but the contents of [new_coeff_] is the same. *)
Definition same_but_scratch (qc qc' : QuantumComputer C) : Prop :=
  nqubit_ qc' = nqubit_ qc ∧ nbasis_ qc' = nbasis_ qc ∧
  basis_ qc' = basis_ qc ∧ coeff_ qc' = coeff_ qc ∧
  length (new_coeff_ qc') = length (new_coeff_ qc).

(** The amplitude stored at index [i] ([C0] stands in where there is
    none). *)
Definition amp (v : list C) (i : Z) : C := default C0 (vec_at v i).

(** One accumulation [new_coeff_[I] += op * coeff_[J]], recorded as the
    triple (I, J, op). *)
Definition event : Type := Basis.t * Basis.t * C.

(** What a sequence of accumulations, performed in order, adds to the
    entry [I] that starts at [a]. *)
Definition acc_terms (c : list C) (I : Z) (evs : list event) (a : C) : C :=
  foldl (λ a '(bI, bJ, op),
           if bool_decide (Basis.add bI = I)
           then Cadd a (Cmul op (amp c (Basis.add bJ))) else a) a evs.

(** [qc'] is [qc] after the accumulations [evs]. *)
Definition accumulated (evs : list event) (qc qc' : QuantumComputer C) : Prop :=
  same_but_scratch qc qc' ∧
  ∀ I a, vec_at (new_coeff_ qc) I = Some a →
         vec_at (new_coeff_ qc') I = Some (acc_terms (coeff_ qc) I evs a).

(** The accumulations of one pass over the basis states: the states
    picked by [sel] each send their term to the entry [dst] names. *)
Definition scan (sel : Basis.t → bool) (dst : Basis.t → Basis.t) (op : C)
    (l : list Basis.t) : list event :=
  basis_J ← l; if sel basis_J then [(dst basis_J, basis_J, op)] else [].

(** The same with a source computed from the element scanned. *)
Definition emit {A : Type} (sel : A → bool) (dst src : A → Basis.t) (op : C)
    (l : list A) : list event :=
  x ← l; if sel x then [(dst x, src x, op)] else [].

(** The accumulations of the dense one-qubit scan, in the order of its
    three loops. *)
Definition events_1qubit (qg : QuantumGate.t C) (basis : list Basis.t)
    : list event :=
  i ← seqZ 0 2; j ← seqZ 0 2;
  scan (λ basis_J, bool_eq_size_t (Basis.get_bit (QuantumGate.target qg) basis_J) j)
       (Basis.set_bit (QuantumGate.target qg) (to_bool i))
       (QuantumGate.gate qg i j) basis.

(** The four (control-bit, target-bit) combinations with their index. *)
Definition combinations : list (Z * (Z * Z)) :=
  imap (λ i p, (Z.of_nat i, p)) QuantumGate.two_qubits_basis.

(** The accumulations the two-qubit routine is specified to make: for
    every pair of combinations [(i, j)] and every basis state [J] whose
    (control, target) bits are combination [j], the term
    [op[i][j] * coeff_[J]] goes to [J] with those bits overwritten by
    combination [i]. *)
Definition events_2qubit (qg : QuantumGate.t C) (basis : list Basis.t)
    : list event :=
  '(i, (i_c, i_t)) ← combinations;
  '(j, (j_c, j_t)) ← combinations;
  scan (λ basis_J,
          bool_decide (Z.b2z (Basis.get_bit (QuantumGate.control qg) basis_J) = j_c)
          && bool_decide (Z.b2z (Basis.get_bit (QuantumGate.target qg) basis_J) = j_t))
       (λ basis_J, Basis.set_bit (QuantumGate.target qg) (to_bool i_t)
                     (Basis.set_bit (QuantumGate.control qg) (to_bool i_c) basis_J))
       (QuantumGate.gate qg i j) basis.

(** The amplitude of the last pair of [state] whose basis index is [I],
    zero when no pair mentions [I]. *)
Definition last_amplitude (state : list (Basis.t * C)) (I : Z) : C :=
  match last (filter (λ basis_c, Basis.add basis_c.1 = I) state) with
  | Some basis_c => basis_c.2
  | None => C0
  end.

(** The character [Basis::str] writes for a bit. *)
Definition bit_char (b : bool) : ascii := if b then "1"%char else "0"%char.

(** The term [str] prints for the basis index [i]. *)
Definition rendered_term `{Printing C} (qc : QuantumComputer C) (i : Z) : string :=
  format_term (amp (coeff_ qc) i)
              (default ""%string (Basis.str (nqubit_ qc) (Basis.mk i))).

(** The basis value [insert] leaves in its receiver (where the call is
    defined), and the spectator configuration of a basis index: the
    index with the bit at [pos] taken out. *)
Definition open_slot (pos : Z) (K : Z) : Basis.t :=
  default (Basis.mk 0) (Basis.insert pos (Basis.mk K)).
Definition close_slot (pos : Z) (I : Z) : Z :=
  Z.lor (Z.land I (Z.ones pos)) (Z.shiftl (Z.shiftr I (pos + 1)) pos).

(** The accumulations of the insertion variant, in the order of its
    loops. *)
Definition events_insertion (qg : QuantumGate.t C) (n : Z) : list event :=
  i ← seqZ 0 2; j ← seqZ 0 2;
  emit (λ _, true)
       (λ K, Basis.set_bit (QuantumGate.target qg) (to_bool i)
               (open_slot (QuantumGate.target qg) K))
       (λ K, Basis.set_bit (QuantumGate.target qg) (to_bool j)
               (open_slot (QuantumGate.target qg) K))
       (QuantumGate.gate qg i j) (seqZ 0 (2 ^ (n - 1))).

(** The accumulations that read the basis state [bJ]. *)
Definition contributions_of (bJ : Basis.t) (evs : list event) : list event :=
  filter (λ e, e.1.2 = bJ) evs.

End Vocabulary.

(** ** The specification's wording, where the code departs from it *)

(** "insert(pos) ... produces the value obtained by shifting all bits at or
    above pos left by one and clearing the newly opened bit at pos". *)
Definition insert_clears_slot (pos : Z) (v : Basis.t) : Prop :=
  ∃ r, Basis.insert pos v = Some r
       ∧ (∀ k, 0 ≤ k < pos → Basis.get_bit k r = Basis.get_bit k v)
       ∧ Basis.get_bit pos r = false
       ∧ (∀ k, pos < k → Basis.get_bit k r = Basis.get_bit (k - 1) v).

(** "Operations are pure": the call leaves the receiver's [state_] as it
    was. *)
Definition insert_leaves_receiver (pos : Z) (b : Basis.t) : Prop :=
  ∀ b', Basis.insert pos b = Some b' → Basis.state_ b' = Basis.state_ b.

(** "renders as |b_{nqubit-1}...b_0>, most-significant qubit first". *)
Definition str_msb_first (nqubit : Z) (b : Basis.t) : Prop :=
  ∃ s, Basis.str nqubit b = Some s
       ∧ String.get 1 s = Some (bit_char (Basis.get_bit (nqubit - 1) b))
       ∧ String.get (Z.to_nat nqubit) s = Some (bit_char (Basis.get_bit 0 b)).

(** ** Further operations and vocabulary *)

(** [QuantumCircuit::str() const].  [gate.str()] is a method of the
    external [QuantumGate]; what it returns is the parameter [gate_str]. *)
Definition QuantumCircuit_str {C : Type} (gate_str : QuantumGate.t C → string)
    (qc_ : QuantumCircuit C) : list string :=
  foldl (λ s gate, s ++ [gate_str gate]) [] (gates qc_).

Section FurtherVocabulary.
Context {C : Type} `{Amplitude C}.

(** A gate [apply_gate] can apply to a register of [N] qubits: if it is
    declared a one-qubit gate, its target is one of the [N] qubits. *)
Definition gate_fits (N : Z) (qg : QuantumGate.t C) : Prop :=
  QuantumGate.nqubits qg = 1 → QuantumGate.target qg < N.

(** The registers a program can hold: built by the constructor and
    changed by the three public mutators. *)
Inductive reachable : QuantumComputer C → Prop :=
| reachable_new N qc :
    QuantumComputer_new N = Some qc → reachable qc
| reachable_set_state state qc qc' :
    reachable qc → set_state state qc = Some qc' → reachable qc'
| reachable_apply_gate qg qc qc' :
    reachable qc → apply_gate qg qc = Some qc' → reachable qc'
| reachable_apply_circuit qc_ qc qc' :
    reachable qc → apply_circuit qc_ qc = Some qc' → reachable qc'.

(** The laws of a semiring with unit, for the statements about particular
    gate matrices. *)
Definition amplitude_laws : Prop :=
  (∀ x, Cadd C0 x = x) ∧ (∀ x, Cadd x C0 = x) ∧
  (∀ x, Cmul C1 x = x) ∧ (∀ x, Cmul C0 x = C0) ∧ (∀ x, Cmul x C0 = C0).

(** The 2×2 identity and bit-flip matrices and the 4×4 controlled-not
    matrix in the ordering 00, 01, 10, 11 of [two_qubits_basis]. *)
Definition identity_matrix (gate : Z → Z → C) : Prop :=
  gate 0 0 = C1 ∧ gate 0 1 = C0 ∧ gate 1 0 = C0 ∧ gate 1 1 = C1.
Definition bit_flip_matrix (gate : Z → Z → C) : Prop :=
  gate 0 0 = C0 ∧ gate 0 1 = C1 ∧ gate 1 0 = C1 ∧ gate 1 1 = C0.
Definition cnot_matrix (gate : Z → Z → C) : Prop :=
  ∀ i j, 0 ≤ i < 4 → 0 ≤ j < 4 →
    gate i j = if bool_decide (j = if bool_decide (i < 2) then i else 5 - i)
               then C1 else C0.

(** The basis state with qubit [t] flipped, and with qubit [t] flipped when
    qubit [c] is set. *)
Definition flip_bit (t : Z) (b : Basis.t) : Basis.t :=
  Basis.set_bit t (negb (Basis.get_bit t b)) b.
Definition cnot_image (c t : Z) (b : Basis.t) : Basis.t :=
  if Basis.get_bit c b then flip_bit t b else b.

End FurtherVocabulary.

(** The identity on qubit [t], and the controlled-not gate with control [c]
    and target [t]. *)
Definition I_gate (t : Z) : QuantumGate.t Z :=
  QuantumGate.mk 1 t 0 (λ i j, if bool_decide (i = j) then 1 else 0).
Definition CNOT_gate (c t : Z) : QuantumGate.t Z :=
  QuantumGate.mk 2 t c
    (λ i j, if bool_decide (j = if bool_decide (i < 2) then i else 5 - i) then 1 else 0).

(** * Properties *)

(** ** The model at small inputs *)

Example insert_ex1 : Basis.insert 1 (Basis.mk 5) = Some (Basis.mk 11).
Proof. by vm_compute. Qed.

Example insert_ex2 : Basis.insert 30 (Basis.mk 1) = Some (Basis.mk 1).
Proof. by vm_compute. Qed.

Example insert_ex3 : Basis.insert 31 (Basis.mk 1) = None.
Proof. by vm_compute. Qed.

Example str_ex1 : Basis.str 3 (Basis.mk 1) = Some "|100>"%string.
Proof. by vm_compute. Qed.

Example new_ex0 : QuantumComputer_new (C:=Z) (-1) = None.
Proof. by vm_compute. Qed.

Example new_ex1 :
  QuantumComputer_new 2
  = Some (mkQC 2 4 [Basis.mk 0; Basis.mk 1; Basis.mk 2; Basis.mk 3] [1; 0; 0; 0] [0; 0; 0; 0]).
Proof. by vm_compute. Qed.

Example dense_ex1 :
  new_coeff_ <$> apply_1qubit_gate (M_gate 1) qc_example
  = Some [2 + 300; 20 + 3000; 4 + 500; 40 + 5000].
Proof. by vm_compute. Qed.

Example insertion_ex1 :
  new_coeff_ <$> apply_1qubit_gate_insertion (M_gate 1) qc_example
  = Some [2 + 300; 20 + 3000; 4 + 500; 40 + 5000].
Proof. by vm_compute. Qed.

Example two_qubit_ex1 :
  new_coeff_ <$> apply_2qubit_gate (CX_gate 1 0) qc_example
  = Some [1 + 20 + 300 + 4000; 5 + 60 + 700 + 8000;
          9 + 100 + 1100 + 12000; 13 + 140 + 1500 + 16000].
Proof. by vm_compute. Qed.

Example apply_gate_ex1 :
  coeff_ <$> apply_gate (X_gate 0) qc_example = Some [10; 1; 1000; 100].
Proof. by vm_compute. Qed.

Example str_ex2 :
  str (10 : @threshold Z Z_printing) qc_example = Some ["|10>"; "|01>"; "|11>"]%string.
Proof. by vm_compute. Qed.

(** ** Bits of a basis value *)

Lemma testbit_set_bit pos val b k :
  0 ≤ pos →
  Z.testbit (Basis.state_ (Basis.set_bit pos val b)) k
  = if bool_decide (k = pos) then val else Z.testbit (Basis.state_ b) k.
Proof.
  intros Hpos. unfold Basis.set_bit; simpl. destruct val.
  - rewrite Z.setbit_eqb by done. case_bool_decide as Hk.
    + subst. by rewrite Z.eqb_refl.
    + replace (pos =? k) with false by (symmetry; apply Z.eqb_neq; congruence). done.
  - rewrite Z.clearbit_eqb. case_bool_decide as Hk.
    + subst. rewrite Z.eqb_refl. apply andb_false_r.
    + replace (pos =? k) with false by (symmetry; apply Z.eqb_neq; congruence).
      apply andb_true_r.
Qed.

Lemma set_bit_nonneg pos val b :
  0 ≤ Basis.state_ b → 0 ≤ Basis.state_ (Basis.set_bit pos val b).
Proof.
  intros Hb. unfold Basis.set_bit; simpl. destruct val.
  - unfold Z.setbit. apply Z.lor_nonneg. split; [done|].
    apply Z.shiftl_nonneg. lia.
  - unfold Z.clearbit. apply Z.ldiff_nonneg. by left.
Qed.

(** Values below [2^n] are those whose bits from [n] on are all clear. *)
Lemma below_pow2_bits n z :
  0 ≤ n → 0 ≤ z → (z < 2 ^ n ↔ ∀ k, n ≤ k → Z.testbit z k = false).
Proof. intros. by apply Z.bounded_iff_bits_nonneg. Qed.

Lemma set_bit_range n pos val b :
  0 ≤ pos < n → 0 ≤ Basis.state_ b < 2 ^ n →
  0 ≤ Basis.state_ (Basis.set_bit pos val b) < 2 ^ n.
Proof.
  intros Hpos [Hb0 Hb]. split; [by apply set_bit_nonneg|].
  apply below_pow2_bits; [lia|by apply set_bit_nonneg|].
  intros k Hk. rewrite testbit_set_bit by lia.
  rewrite bool_decide_eq_false_2 by lia.
  revert k Hk. apply below_pow2_bits; [lia|done|done].
Qed.

Lemma basis_eq (a b : Basis.t) :
  (∀ k, 0 ≤ k → Z.testbit (Basis.state_ a) k = Z.testbit (Basis.state_ b) k) → a = b.
Proof. destruct a, b; simpl. intros Hk. f_equal. by apply Z.bits_inj'. Qed.

Lemma to_bool_0 : to_bool 0 = false.
Proof. done. Qed.
Lemma to_bool_1 : to_bool 1 = true.
Proof. done. Qed.

Lemma bool_eq_size_t_spec (b : bool) (z : Z) :
  0 ≤ z ≤ 1 → bool_eq_size_t b z = bool_decide (b = to_bool z).
Proof.
  intros Hz. unfold bool_eq_size_t, to_bool.
  assert (z = 0 ∨ z = 1) as [-> | ->] by lia; by destruct b.
Qed.

(** The dense scan sends [J] to [I] exactly when [I] has the output bit and
    [J] is [I] with the target bit set to the input bit. *)
Lemma dense_selects target (vi vj : bool) (bI bJ : Basis.t) :
  0 ≤ target →
  (Basis.get_bit target bJ = vj ∧ Basis.set_bit target vi bJ = bI)
  ↔ (Basis.get_bit target bI = vi ∧ bJ = Basis.set_bit target vj bI).
Proof.
  intros Ht. unfold Basis.get_bit. split.
  - intros [Hj <-]. split.
    + rewrite testbit_set_bit by done. by rewrite bool_decide_eq_true_2.
    + apply basis_eq. intros k Hk. rewrite !testbit_set_bit by done.
      case_bool_decide; by subst.
  - intros [Hi ->]. split.
    + rewrite testbit_set_bit by done. by rewrite bool_decide_eq_true_2.
    + apply basis_eq. intros k Hk. rewrite !testbit_set_bit by done.
      case_bool_decide; by subst.
Qed.

(** ** [Basis::insert] *)

Lemma int_mask_defined pos :
  0 ≤ pos < int_bits - 1 →
  int_shl 1 pos ≫= (λ one_shl, int_sub one_shl 1) = Some (Z.ones pos).
Proof.
  unfold int_bits. intros Hpos.
  assert (0 < 2 ^ pos ≤ 2 ^ 30) as Hpow.
  { split; [apply Z.pow_pos_nonneg; lia | apply Z.pow_le_mono_r; lia]. }
  unfold int_shl, int_sub, INT_MAX, int_bits; simpl.
  rewrite bool_decide_eq_true_2 by lia. simpl.
  rewrite Z.shiftl_1_l, bool_decide_eq_true_2 by lia.
  by rewrite Z.ones_equiv, <-Z.sub_1_r.
Qed.

Lemma ones_range pos : 0 ≤ pos < int_bits - 1 → 0 ≤ Z.ones pos < 2 ^ basis_bits.
Proof.
  unfold int_bits, basis_bits. intros Hpos. rewrite Z.ones_equiv.
  assert (0 < 2 ^ pos ≤ 2 ^ 30) as Hpow.
  { split; [apply Z.pow_pos_nonneg; lia | apply Z.pow_le_mono_r; lia]. }
  lia.
Qed.

(** The inserted value, bit by bit: positions below [pos] keep their bit
    and every other position [k] receives bit [k - 1]. *)
Lemma insert_bits pos s :
  0 ≤ pos < int_bits - 1 → 0 ≤ s < 2 ^ (basis_bits - 1) →
  ∃ r, Basis.insert pos (Basis.mk s) = Some (Basis.mk r) ∧ 0 ≤ r ∧
       ∀ k, 0 ≤ k →
         Z.testbit r k = if bool_decide (k < pos) then Z.testbit s k
                         else Z.testbit s (k - 1).
Proof.
  intros Hpos Hs. unfold Basis.insert; simpl.
  pose proof (int_mask_defined pos Hpos) as Hmask.
  destruct (int_shl 1 pos) as [one_shl|]; simpl in *; [|done].
  rewrite Hmask; simpl.
  assert (wrap_basis (Z.shiftl s 1) = Z.shiftl s 1) as ->.
  { unfold wrap_basis. apply Z.mod_small. rewrite Z.shiftl_mul_pow2 by lia.
    unfold basis_bits in *; simpl in *. lia. }
  assert (wrap_basis (Z.ones pos) = Z.ones pos) as ->.
  { unfold wrap_basis. apply Z.mod_small. by apply ones_range. }
  eexists; split; [done|]. split.
  - apply Z.lxor_nonneg. split; intros _.
    + apply Z.land_nonneg. right. apply ones_range. done.
    + apply Z.shiftl_nonneg. lia.
  - intros k Hk.
    rewrite Z.lxor_spec, Z.land_spec, Z.lxor_spec, Z.shiftl_spec by done.
    rewrite Z.testbit_ones by lia.
    replace (0 <=? k) with true by (symmetry; apply Z.leb_le; lia).
    case_bool_decide as Hlt.
    + replace (k <? pos) with true by (symmetry; apply Z.ltb_lt; lia).
      simpl. rewrite andb_true_r.
      by destruct (Z.testbit s (k - 1)), (Z.testbit s k).
    + replace (k <? pos) with false by (symmetry; apply Z.ltb_ge; lia).
      simpl. rewrite andb_false_r. apply xorb_false_r.
Qed.

(** From position 31 on the mask expression [(1 << pos) - 1] leaves the
    range of [int]: it has no value and neither has the call. *)
Lemma insert_undefined pos b : int_bits - 1 ≤ pos → Basis.insert pos b = None.
Proof.
  intros Hpos. unfold Basis.insert, int_shl.
  rewrite bool_decide_eq_false_2; [done|].
  intros (Hlt & _ & Hmax).
  assert (2 ^ (int_bits - 1) ≤ 2 ^ pos).
  { apply Z.pow_le_mono_r; unfold int_bits in *; lia. }
  unfold INT_MAX in Hmax. lia.
Qed.

(** ** Loops and vectors *)

Lemma for_each_app {A S} (l1 l2 : list A) (body : A → S → option S) s :
  for_each (l1 ++ l2) body s = for_each l1 body s ≫= for_each l2 body.
Proof.
  revert s. induction l1 as [|x l1 IH]; intros s; simpl; [done|].
  destruct (body x s) as [s'|]; simpl; [apply IH|done].
Qed.

Lemma vec_at_Some {A} (v : list A) i x :
  vec_at v i = Some x ↔ 0 ≤ i ∧ v !! Z.to_nat i = Some x.
Proof.
  unfold vec_at. case_bool_decide as Hi; split.
  - done.
  - by intros [_ ?].
  - done.
  - by intros [? _].
Qed.

Lemma vec_at_lt {A} (v : list A) i x :
  vec_at v i = Some x → 0 ≤ i < Z.of_nat (length v).
Proof.
  intros [Hi Hx]%vec_at_Some. apply lookup_lt_Some in Hx. lia.
Qed.

Lemma vec_at_is_Some {A} (v : list A) i :
  0 ≤ i < Z.of_nat (length v) → is_Some (vec_at v i).
Proof.
  intros Hi. unfold vec_at. rewrite bool_decide_eq_true_2 by lia.
  apply lookup_lt_is_Some. lia.
Qed.

Lemma vec_set_Some {A} (v : list A) i x :
  0 ≤ i < Z.of_nat (length v) → vec_set v i x = Some (<[Z.to_nat i := x]> v).
Proof. intros Hi. unfold vec_set. by rewrite bool_decide_eq_true_2. Qed.

Lemma vec_at_insert {A} (v : list A) i j x :
  0 ≤ i < Z.of_nat (length v) →
  vec_at (<[Z.to_nat i := x]> v) j = if bool_decide (i = j) then Some x else vec_at v j.
Proof.
  intros Hi. case_bool_decide as Hij; unfold vec_at.
  - subst j. rewrite bool_decide_eq_true_2 by lia.
    apply list_lookup_insert_eq. lia.
  - case_bool_decide; [|done]. apply list_lookup_insert_ne. lia.
Qed.

Lemma vec_at_replicate {A} n (x : A) i :
  0 ≤ i < Z.of_nat n → vec_at (replicate n x) i = Some x.
Proof.
  intros Hi. unfold vec_at. rewrite bool_decide_eq_true_2 by lia.
  apply lookup_replicate_2. lia.
Qed.

(** ** Accumulation *)

Section Accumulation.
Context {C : Type} `{Amplitude C}.
Implicit Types (qc : QuantumComputer C) (evs : list (@event C)).

Lemma same_but_scratch_refl qc : same_but_scratch qc qc.
Proof. by repeat split. Qed.

Lemma same_but_scratch_trans qc1 qc2 qc3 :
  same_but_scratch qc1 qc2 → same_but_scratch qc2 qc3 → same_but_scratch qc1 qc3.
Proof.
  intros (?&?&?&?&?) (?&?&?&?&?). repeat split; congruence.
Qed.

Lemma wf_same_but_scratch qc qc' : wf qc → same_but_scratch qc qc' → wf qc'.
Proof.
  intros (?&?&?&?&?) (En&Eb&Ebs&Ec&El). unfold wf.
  rewrite En, Eb, Ebs, Ec, El. done.
Qed.

Lemma acc_terms_app c I evs1 evs2 a :
  acc_terms c I (evs1 ++ evs2) a = acc_terms c I evs2 (acc_terms c I evs1 a).
Proof. unfold acc_terms. apply foldl_app. Qed.

Lemma acc_terms_bind {A} c I (l : list A) (E : A → list event) a :
  acc_terms c I (l ≫= E) a = foldl (λ a x, acc_terms c I (E x) a) a l.
Proof.
  revert a. induction l as [|x l IH]; intros a; [done|].
  rewrite bind_cons, acc_terms_app. apply IH.
Qed.

Lemma accumulated_nil qc : accumulated [] qc qc.
Proof. split; [apply same_but_scratch_refl|done]. Qed.

Lemma accumulated_app evs1 evs2 qc1 qc2 qc3 :
  accumulated evs1 qc1 qc2 → accumulated evs2 qc2 qc3 →
  accumulated (evs1 ++ evs2) qc1 qc3.
Proof.
  intros [Hs1 H1] [Hs2 H2]. split; [by eapply same_but_scratch_trans|].
  intros I a Ha. rewrite acc_terms_app.
  destruct Hs1 as (_&_&_&Ec&_). rewrite Ec in H2. by apply H2, H1.
Qed.

(** One accumulation with both subscripts in range. *)
Lemma accumulate_accumulated bI bJ op qc :
  0 ≤ Basis.add bI < Z.of_nat (length (new_coeff_ qc)) →
  0 ≤ Basis.add bJ < Z.of_nat (length (coeff_ qc)) →
  ∃ qc', accumulate bI bJ op qc = Some qc' ∧ accumulated [(bI, bJ, op)] qc qc'.
Proof.
  intros HI HJ. unfold accumulate.
  destruct (vec_at_is_Some _ _ HJ) as [cJ HcJ].
  destruct (vec_at_is_Some _ _ HI) as [nI HnI].
  rewrite HcJ, HnI; simpl. rewrite vec_set_Some by done; simpl.
  eexists; split; [done|]. split.
  - repeat split; simpl. apply length_insert.
  - intros I a Ha; simpl. rewrite vec_at_insert by done.
    unfold amp. rewrite HcJ; simpl.
    case_bool_decide as HIeq; [|done]. congruence.
Qed.

(** A loop whose iterations each perform a known list of accumulations
    performs their concatenation. *)
Lemma for_each_accumulated {A} (l : list A)
    (body : A → QuantumComputer C → option (QuantumComputer C))
    (E : A → list event) qc :
  (∀ x qc1, x ∈ l → same_but_scratch qc qc1 →
     ∃ qc2, body x qc1 = Some qc2 ∧ accumulated (E x) qc1 qc2) →
  ∃ qc', for_each l body qc = Some qc' ∧ accumulated (l ≫= E) qc qc'.
Proof.
  revert qc. induction l as [|x l IH]; intros qc Hbody.
  - eexists; split; [done|apply accumulated_nil].
  - rewrite bind_cons. cbn [for_each].
    destruct (Hbody x qc) as (qc2 & -> & Hacc);
      [left|apply same_but_scratch_refl|]. simpl.
    destruct (IH qc2) as (qc' & -> & Hacc').
    { intros y qc1 Hy Hsame. apply Hbody; [by right|].
      eapply same_but_scratch_trans; [apply Hacc|done]. }
    eexists; split; [done|]. by eapply accumulated_app.
Qed.

Lemma acc_terms_emit_none {A} c I sel (dst src : A → Basis.t) op l a :
  (∀ x, x ∈ l → sel x = true → Basis.add (dst x) ≠ I) →
  acc_terms c I (emit sel dst src op l) a = a.
Proof.
  unfold emit. induction l as [|x l IH]; intros Hnone; [done|].
  rewrite bind_cons, acc_terms_app.
  match goal with |- acc_terms _ _ _ ?t = _ => assert (t = a) as -> end.
  { destruct (sel x) eqn:Hsel; [|done]. simpl.
    rewrite bool_decide_eq_false_2; [done|]. apply Hnone; [left|done]. }
  apply IH. intros; apply Hnone; [by right|done].
Qed.

Lemma acc_terms_emit_unique {A} c I sel (dst src : A → Basis.t) op l a x :
  NoDup l → x ∈ l → sel x = true → Basis.add (dst x) = I →
  (∀ x', x' ∈ l → sel x' = true → Basis.add (dst x') = I → x' = x) →
  acc_terms c I (emit sel dst src op l) a
  = Cadd a (Cmul op (amp c (Basis.add (src x)))).
Proof.
  intros Hnd Hin Hsel Hdst Huniq.
  apply list_elem_of_split in Hin as (l1 & l2 & ->).
  apply NoDup_app in Hnd as (Hnd1 & Hnot & Hnd2).
  apply NoDup_cons in Hnd2 as [Hnot2 _].
  unfold emit. rewrite bind_app, bind_cons, !acc_terms_app.
  fold (emit sel dst src op l1). fold (emit sel dst src op l2).
  rewrite acc_terms_emit_none.
  2:{ intros x' Hin' Hsel' Hdst'.
      assert (x' = x) as ->.
      { apply Huniq; [|done..]. apply elem_of_app. right. by right. }
      done. }
  rewrite Hsel; simpl. rewrite bool_decide_eq_true_2 by done.
  f_equal. apply acc_terms_emit_none.
  intros x' Hin' Hsel' Hdst'.
  assert (x' = x) as ->.
  { apply Huniq; [|done..]. apply elem_of_app. by left. }
  apply (Hnot x); [done|left].
Qed.

Lemma scan_emit sel dst (op : C) l : scan sel dst op l = emit sel dst id op l.
Proof. done. Qed.

End Accumulation.

(** ** The dense one-qubit scan *)

Section Dense.
Context {C : Type} `{Amplitude C}.
Implicit Types (qc : QuantumComputer C) (qg : QuantumGate.t C).

Lemma add_eq_mk (b : Basis.t) (I : Z) : Basis.add b = I ↔ b = Basis.mk I.
Proof. destruct b; simpl. split; [by intros ->|by intros [= ->]]. Qed.

Lemma NoDup_basis n : NoDup (Basis.mk <$> seqZ 0 n).
Proof.
  apply NoDup_fmap_2; [|apply NoDup_seqZ]. by intros ?? [= ->].
Qed.

Lemma elem_of_basis n (b : Basis.t) :
  b ∈ Basis.mk <$> seqZ 0 n ↔ 0 ≤ Basis.state_ b < n.
Proof.
  rewrite list_elem_of_fmap. setoid_rewrite elem_of_seqZ. destruct b; simpl.
  split; [intros (x & [= ->] & ?); lia|]. intros ?. eexists; split; [done|lia].
Qed.

Lemma wf_lengths qc :
  wf qc →
  Z.of_nat (length (coeff_ qc)) = 2 ^ nqubit_ qc ∧
  Z.of_nat (length (new_coeff_ qc)) = 2 ^ nqubit_ qc.
Proof.
  intros (Hn & Hnb & _ & -> & ->). rewrite Hnb.
  assert (0 < 2 ^ nqubit_ qc) by (apply Z.pow_pos_nonneg; lia). lia.
Qed.

(** The innermost loop of the scans: a guarded accumulation per basis
    state. *)
Lemma for_each_scan sel dst op (l : list Basis.t) qc :
  (∀ bJ, bJ ∈ l → sel bJ = true →
     0 ≤ Basis.add (dst bJ) < Z.of_nat (length (new_coeff_ qc)) ∧
     0 ≤ Basis.add bJ < Z.of_nat (length (coeff_ qc))) →
  ∃ qc', for_each l (λ basis_J qc,
                       if sel basis_J then accumulate (dst basis_J) basis_J op qc
                       else Some qc) qc = Some qc'
         ∧ accumulated (scan sel dst op l) qc qc'.
Proof.
  intros Hrange. unfold scan. apply for_each_accumulated.
  intros bJ qc1 Hin (_&_&_&Ec&El).
  destruct (sel bJ) eqn:Hsel.
  - apply accumulate_accumulated; rewrite ?Ec, ?El; by apply Hrange.
  - eexists; split; [done|apply accumulated_nil].
Qed.

(** What one scan that filters on the target bit and rewrites it adds to
    entry [I]. *)
Lemma acc_terms_scan_set_bit c n t (vi vj : bool) sel op I a :
  0 ≤ t < n → 0 ≤ I < 2 ^ n →
  (∀ bJ, sel bJ = true ↔ Basis.get_bit t bJ = vj) →
  acc_terms c I (scan sel (Basis.set_bit t vi) op (Basis.mk <$> seqZ 0 (2 ^ n))) a
  = if bool_decide (Z.testbit I t = vi)
    then Cadd a (Cmul op (amp c (Basis.add (Basis.set_bit t vj (Basis.mk I)))))
    else a.
Proof.
  intros Ht HI Hsel. rewrite scan_emit. case_bool_decide as Hbit.
  - apply (acc_terms_emit_unique _ _ _ _ id _ _ _ (Basis.set_bit t vj (Basis.mk I))).
    + apply NoDup_basis.
    + apply elem_of_basis. by apply set_bit_range.
    + apply Hsel. unfold Basis.get_bit. rewrite testbit_set_bit by lia.
      by rewrite bool_decide_eq_true_2.
    + apply add_eq_mk.
      by apply (dense_selects t vi vj (Basis.mk I)); [lia|].
    + intros bJ' _ Hsel' Hdst%add_eq_mk. apply Hsel in Hsel'.
      by apply (dense_selects t vi vj (Basis.mk I) bJ'); [lia|].
  - apply acc_terms_emit_none.
    intros bJ' _ _ Hdst%add_eq_mk. apply Hbit.
    assert (I = Basis.state_ (Basis.set_bit t vi bJ')) as -> by (by rewrite Hdst).
    rewrite testbit_set_bit by lia. by rewrite bool_decide_eq_true_2.
Qed.

Lemma sel_size_t_spec t (j : Z) bJ :
  0 ≤ j ≤ 1 →
  bool_eq_size_t (Basis.get_bit t bJ) j = true ↔ Basis.get_bit t bJ = to_bool j.
Proof.
  intros Hj. rewrite bool_eq_size_t_spec by done. apply bool_decide_eq_true.
Qed.

(** The dense scan runs to completion and performs exactly the
    accumulations of [events_1qubit]. *)
Lemma apply_1qubit_gate_accumulated qg qc :
  wf qc → 0 ≤ QuantumGate.target qg < nqubit_ qc →
  ∃ qc', apply_1qubit_gate qg qc = Some qc'
         ∧ accumulated (events_1qubit qg (basis_ qc)) qc qc'.
Proof.
  intros Hwf Ht. unfold apply_1qubit_gate, events_1qubit.
  apply (for_each_accumulated (seqZ 0 2) _
           (λ i, j ← seqZ 0 2;
                 scan (λ bJ, bool_eq_size_t (Basis.get_bit (QuantumGate.target qg) bJ) j)
                      (Basis.set_bit (QuantumGate.target qg) (to_bool i))
                      (QuantumGate.gate qg i j) (basis_ qc))).
  intros i qc1 Hi Hs1.
  apply (for_each_accumulated (seqZ 0 2) _
           (λ j, scan (λ bJ, bool_eq_size_t (Basis.get_bit (QuantumGate.target qg) bJ) j)
                      (Basis.set_bit (QuantumGate.target qg) (to_bool i))
                      (QuantumGate.gate qg i j) (basis_ qc))).
  intros j qc2 Hj Hs2.
  pose proof (same_but_scratch_trans _ _ _ Hs1 Hs2) as Hs.
  pose proof (wf_same_but_scratch _ _ Hwf Hs) as Hwf2.
  destruct (wf_lengths _ Hwf2) as [Hlc Hln].
  destruct Hs as (En&_&Ebs&_&_). rewrite <-Ebs.
  apply for_each_scan. intros bJ Hin _. rewrite Hlc, Hln.
  destruct Hwf2 as (?&Enb&Ebasis&_). rewrite Ebasis, Enb in Hin.
  apply elem_of_basis in Hin. split; [|done].
  apply set_bit_range; [lia|done].
Qed.

(** Entry [I] after the four passes: first the term of the matrix column
    0, then that of column 1, both from the row named by [I]'s target
    bit. *)
Lemma acc_terms_events_1qubit c n qg I a :
  0 ≤ QuantumGate.target qg < n → 0 ≤ I < 2 ^ n →
  acc_terms c I (events_1qubit qg (Basis.mk <$> seqZ 0 (2 ^ n))) a
  = Cadd (Cadd a
            (Cmul (QuantumGate.gate qg (Z.b2z (Z.testbit I (QuantumGate.target qg))) 0)
                  (amp c (Basis.add (Basis.set_bit (QuantumGate.target qg) false (Basis.mk I))))))
         (Cmul (QuantumGate.gate qg (Z.b2z (Z.testbit I (QuantumGate.target qg))) 1)
               (amp c (Basis.add (Basis.set_bit (QuantumGate.target qg) true (Basis.mk I))))).
Proof.
  intros Ht HI. unfold events_1qubit. change (seqZ 0 2) with [0; 1].
  rewrite acc_terms_bind. cbn [foldl]. rewrite !acc_terms_bind. cbn [foldl].
  rewrite (acc_terms_scan_set_bit c n _ (to_bool 1) (to_bool 1)), to_bool_1;
    [|done|done|by intros; apply sel_size_t_spec].
  rewrite (acc_terms_scan_set_bit c n _ (to_bool 1) (to_bool 0)), to_bool_0, to_bool_1;
    [|done|done|by intros; apply sel_size_t_spec].
  rewrite (acc_terms_scan_set_bit c n _ (to_bool 0) (to_bool 1)), to_bool_0, to_bool_1;
    [|done|done|by intros; apply sel_size_t_spec].
  rewrite (acc_terms_scan_set_bit c n _ (to_bool 0) (to_bool 0)), to_bool_0;
    [|done|done|by intros; apply sel_size_t_spec].
  by destruct (Z.testbit I (QuantumGate.target qg)).
Qed.

Lemma amp_coeff qc (b : Basis.t) :
  0 ≤ Basis.add b < Z.of_nat (length (coeff_ qc)) →
  coeff b qc = Some (amp (coeff_ qc) (Basis.add b)).
Proof.
  intros Hb. unfold coeff, amp.
  by destruct (vec_at_is_Some (coeff_ qc) _ Hb) as [x ->].
Qed.

(** The dense scan, entry by entry, from any contents of the scratch
    buffer. *)
Lemma apply_1qubit_gate_entries qg qc :
  wf qc → 0 ≤ QuantumGate.target qg < nqubit_ qc →
  ∃ qc', apply_1qubit_gate qg qc = Some qc' ∧ same_but_scratch qc qc' ∧
    ∀ I a, vec_at (new_coeff_ qc) I = Some a →
      let t := QuantumGate.target qg in
      let b := Z.b2z (Z.testbit I t) in
      ∃ c0 c1,
        coeff (Basis.set_bit t false (Basis.mk I)) qc = Some c0 ∧
        coeff (Basis.set_bit t true (Basis.mk I)) qc = Some c1 ∧
        vec_at (new_coeff_ qc') I
        = Some (Cadd (Cadd a (Cmul (QuantumGate.gate qg b 0) c0))
                     (Cmul (QuantumGate.gate qg b 1) c1)).
Proof.
  intros Hwf Ht.
  destruct (apply_1qubit_gate_accumulated qg qc Hwf Ht) as (qc' & Hrun & Hsame & Hacc).
  exists qc'. split; [done|]. split; [done|].
  intros I a Ha t b.
  destruct (wf_lengths _ Hwf) as [Hlc Hln].
  pose proof (vec_at_lt _ _ _ Ha) as HI. rewrite Hln in HI.
  eexists _, _. split; [|split].
  - apply amp_coeff. rewrite Hlc. apply set_bit_range; [lia|done].
  - apply amp_coeff. rewrite Hlc. apply set_bit_range; [lia|done].
  - rewrite (Hacc I a Ha). f_equal.
    destruct Hwf as (_ & Enb & -> & _). rewrite Enb.
    by apply acc_terms_events_1qubit.
Qed.

End Dense.

(** ** The insertion variant *)

Lemma open_slot_defined pos K :
  0 ≤ pos < int_bits - 1 → 0 ≤ K < 2 ^ (basis_bits - 1) →
  Basis.insert pos (Basis.mk K) = Some (open_slot pos K)
  ∧ 0 ≤ Basis.state_ (open_slot pos K).
Proof.
  intros Hpos HK. unfold open_slot.
  destruct (insert_bits pos K Hpos HK) as (r & -> & Hr & _). done.
Qed.

Lemma testbit_open_slot pos K k :
  0 ≤ pos < int_bits - 1 → 0 ≤ K < 2 ^ (basis_bits - 1) → 0 ≤ k →
  Z.testbit (Basis.state_ (open_slot pos K)) k
  = if bool_decide (k < pos) then Z.testbit K k else Z.testbit K (k - 1).
Proof.
  intros Hpos HK Hk. unfold open_slot.
  destruct (insert_bits pos K Hpos HK) as (r & -> & _ & Hbits). by apply Hbits.
Qed.

Lemma testbit_set_open_slot pos v K k :
  0 ≤ pos < int_bits - 1 → 0 ≤ K < 2 ^ (basis_bits - 1) → 0 ≤ k →
  Z.testbit (Basis.state_ (Basis.set_bit pos v (open_slot pos K))) k
  = if bool_decide (k = pos) then v
    else if bool_decide (k < pos) then Z.testbit K k else Z.testbit K (k - 1).
Proof.
  intros Hpos HK Hk. rewrite testbit_set_bit by lia.
  case_bool_decide; [done|]. by apply testbit_open_slot.
Qed.

Lemma pow2_le_basis n : 0 ≤ n < basis_bits → 2 ^ (n - 1) ≤ 2 ^ (basis_bits - 1).
Proof.
  intros Hn. destruct (decide (n = 0)) as [->|].
  - rewrite Z.pow_neg_r by lia. apply Z.pow_nonneg. lia.
  - apply Z.pow_le_mono_r; lia.
Qed.

Lemma set_open_slot_range n pos v K :
  0 ≤ pos < int_bits - 1 → pos < n → n < basis_bits → 0 ≤ K < 2 ^ (n - 1) →
  0 ≤ Basis.state_ (Basis.set_bit pos v (open_slot pos K)) < 2 ^ n.
Proof.
  intros Hpos Hn Hn' HK.
  assert (0 ≤ K < 2 ^ (basis_bits - 1)) as HK'.
  { pose proof (pow2_le_basis n). lia. }
  assert (0 ≤ Basis.state_ (Basis.set_bit pos v (open_slot pos K))) as H0.
  { apply set_bit_nonneg. by apply open_slot_defined. }
  split; [done|]. apply below_pow2_bits; [lia|done|].
  intros k Hk. rewrite testbit_set_open_slot by lia.
  rewrite !bool_decide_eq_false_2 by lia.
  assert (K < 2 ^ (n - 1)) as HKn by lia.
  apply (proj1 (below_pow2_bits (n - 1) K ltac:(lia) ltac:(lia)) HKn). lia.
Qed.

Lemma testbit_close_slot pos I k :
  0 ≤ pos → 0 ≤ k →
  Z.testbit (close_slot pos I) k
  = if bool_decide (k < pos) then Z.testbit I k else Z.testbit I (k + 1).
Proof.
  intros Hpos Hk. unfold close_slot.
  rewrite Z.lor_spec, Z.land_spec, Z.testbit_ones by lia.
  rewrite Z.shiftl_spec by lia.
  replace (0 <=? k) with true by (symmetry; apply Z.leb_le; lia).
  case_bool_decide as Hlt.
  - replace (k <? pos) with true by (symmetry; apply Z.ltb_lt; lia).
    rewrite (Z.testbit_neg_r _ (k - pos)) by lia. simpl.
    by rewrite andb_true_r, orb_false_r.
  - replace (k <? pos) with false by (symmetry; apply Z.ltb_ge; lia).
    simpl. rewrite andb_false_r, Z.shiftr_spec by lia. simpl.
    f_equal. lia.
Qed.

Lemma close_slot_range n pos I :
  0 ≤ pos < n → 0 ≤ I < 2 ^ n → 0 ≤ close_slot pos I < 2 ^ (n - 1).
Proof.
  intros Hpos [HI0 HI].
  assert (0 ≤ close_slot pos I) as H0.
  { unfold close_slot. apply Z.lor_nonneg. split.
    - apply Z.land_nonneg. by left.
    - apply Z.shiftl_nonneg, Z.shiftr_nonneg. done. }
  split; [done|]. apply below_pow2_bits; [lia|done|].
  intros k Hk. rewrite testbit_close_slot by lia.
  rewrite bool_decide_eq_false_2 by lia.
  apply (proj1 (below_pow2_bits n I ltac:(lia) ltac:(lia)) HI). lia.
Qed.

(** The insertion variant sends the spectator configuration [K] to [I]
    exactly when [I] has the output bit and [K] is [I] without its target
    bit. *)
Lemma insertion_selects pos v K I :
  0 ≤ pos < int_bits - 1 → 0 ≤ K < 2 ^ (basis_bits - 1) → 0 ≤ I →
  Basis.set_bit pos v (open_slot pos K) = Basis.mk I
  ↔ Z.testbit I pos = v ∧ K = close_slot pos I.
Proof.
  intros Hpos HK HI. split.
  - intros Heq.
    assert (∀ k, 0 ≤ k → Z.testbit I k
              = if bool_decide (k = pos) then v
                else if bool_decide (k < pos) then Z.testbit K k
                     else Z.testbit K (k - 1)) as Hbits.
    { intros k Hk. rewrite <-testbit_set_open_slot by lia. by rewrite Heq. }
    split.
    + rewrite Hbits by lia. by rewrite bool_decide_eq_true_2.
    + apply Z.bits_inj'. intros k Hk. rewrite testbit_close_slot by lia.
      case_bool_decide.
      * rewrite Hbits by lia. rewrite bool_decide_eq_false_2 by lia.
        by rewrite bool_decide_eq_true_2 by lia.
      * rewrite Hbits by lia. rewrite !bool_decide_eq_false_2 by lia.
        f_equal. lia.
  - intros [Hv ->]. apply basis_eq. intros k Hk.
    rewrite testbit_set_open_slot by lia. simpl.
    case_bool_decide as Hkp; [by subst|].
    case_bool_decide.
    + rewrite testbit_close_slot by lia. by rewrite bool_decide_eq_true_2 by lia.
    + rewrite testbit_close_slot by lia. rewrite bool_decide_eq_false_2 by lia.
      f_equal. lia.
Qed.

Lemma set_open_close_slot pos w I :
  0 ≤ pos < int_bits - 1 → 0 ≤ close_slot pos I < 2 ^ (basis_bits - 1) → 0 ≤ I →
  Basis.set_bit pos w (open_slot pos (close_slot pos I))
  = Basis.set_bit pos w (Basis.mk I).
Proof.
  intros Hpos HK HI. apply basis_eq. intros k Hk.
  rewrite testbit_set_open_slot, testbit_set_bit by lia.
  case_bool_decide; [done|]. simpl.
  case_bool_decide.
  - rewrite testbit_close_slot by lia. by rewrite bool_decide_eq_true_2 by lia.
  - rewrite testbit_close_slot by lia. rewrite bool_decide_eq_false_2 by lia.
    f_equal. lia.
Qed.

Section Insertion.
Context {C : Type} `{Amplitude C}.
Implicit Types (qc : QuantumComputer C) (qg : QuantumGate.t C).

Lemma pow2_size_t_Some n : 0 ≤ n < basis_bits → pow2_size_t n = Some (2 ^ n).
Proof.
  intros Hn. unfold pow2_size_t.
  rewrite bool_decide_eq_false_2 by lia. by rewrite bool_decide_eq_true_2 by lia.
Qed.

Lemma apply_1qubit_gate_insertion_accumulated qg qc :
  wf qc → 0 ≤ QuantumGate.target qg < nqubit_ qc →
  QuantumGate.target qg < int_bits - 1 →
  ∃ qc', apply_1qubit_gate_insertion qg qc = Some qc'
         ∧ accumulated (events_insertion qg (nqubit_ qc)) qc qc'.
Proof.
  intros Hwf Ht Ht'. unfold apply_1qubit_gate_insertion, events_insertion.
  pose proof Hwf as (Hn & _).
  rewrite pow2_size_t_Some by lia. cbn [mbind option_bind].
  apply (for_each_accumulated (seqZ 0 2) _
           (λ i, j ← seqZ 0 2;
                 emit (λ _, true)
                   (λ K, Basis.set_bit (QuantumGate.target qg) (to_bool i)
                           (open_slot (QuantumGate.target qg) K))
                   (λ K, Basis.set_bit (QuantumGate.target qg) (to_bool j)
                           (open_slot (QuantumGate.target qg) K))
                   (QuantumGate.gate qg i j) (seqZ 0 (2 ^ (nqubit_ qc - 1))))).
  intros i qc1 Hi Hs1.
  apply (for_each_accumulated (seqZ 0 2) _
           (λ j, emit (λ _, true)
                   (λ K, Basis.set_bit (QuantumGate.target qg) (to_bool i)
                           (open_slot (QuantumGate.target qg) K))
                   (λ K, Basis.set_bit (QuantumGate.target qg) (to_bool j)
                           (open_slot (QuantumGate.target qg) K))
                   (QuantumGate.gate qg i j) (seqZ 0 (2 ^ (nqubit_ qc - 1))))).
  intros j qc2 Hj Hs2.
  pose proof (same_but_scratch_trans _ _ _ Hs1 Hs2) as Hs.
  pose proof (wf_same_but_scratch _ _ Hwf Hs) as Hwf2.
  destruct Hs as (En&_).
  unfold emit. apply for_each_accumulated.
  intros K qc3 HK Hs3. apply elem_of_seqZ in HK.
  pose proof (wf_same_but_scratch _ _ Hwf2 Hs3) as Hwf3.
  destruct (wf_lengths _ Hwf3) as [Hlc Hln].
  destruct Hs3 as (En3&_). rewrite En3, En in Hlc, Hln.
  assert (0 ≤ K < 2 ^ (basis_bits - 1)) as HK'.
  { pose proof (pow2_le_basis (nqubit_ qc)). lia. }
  destruct (open_slot_defined (QuantumGate.target qg) K) as [-> _]; [lia|done|].
  cbn [mbind option_bind]. apply accumulate_accumulated; rewrite ?Hlc, ?Hln.
  - apply set_open_slot_range; lia.
  - apply set_open_slot_range; lia.
Qed.

Lemma acc_terms_emit_open_slot c n t (vi vj : bool) op I a :
  0 ≤ t < n → t < int_bits - 1 → n < basis_bits → 0 ≤ I < 2 ^ n →
  acc_terms c I
    (emit (λ _, true) (λ K, Basis.set_bit t vi (open_slot t K))
          (λ K, Basis.set_bit t vj (open_slot t K)) op (seqZ 0 (2 ^ (n - 1)))) a
  = if bool_decide (Z.testbit I t = vi)
    then Cadd a (Cmul op (amp c (Basis.add (Basis.set_bit t vj (Basis.mk I)))))
    else a.
Proof.
  intros Ht Ht' Hn HI.
  assert (∀ K, K ∈ seqZ 0 (2 ^ (n - 1)) → 0 ≤ K < 2 ^ (basis_bits - 1)) as Hin.
  { intros K HK%elem_of_seqZ. pose proof (pow2_le_basis n). lia. }
  pose proof (close_slot_range n t I Ht HI) as Hclose.
  case_bool_decide as Hbit.
  - rewrite <-(set_open_close_slot t vj I);
      [|lia|pose proof (pow2_le_basis n); lia|lia].
    apply (acc_terms_emit_unique c I (λ _, true)
             (λ K, Basis.set_bit t vi (open_slot t K))
             (λ K, Basis.set_bit t vj (open_slot t K)) op _ a (close_slot t I)).
    + apply NoDup_seqZ.
    + apply elem_of_seqZ. lia.
    + done.
    + apply add_eq_mk. apply insertion_selects; [lia| |lia|done].
      pose proof (pow2_le_basis n). lia.
    + intros K HK _ Hdst%add_eq_mk.
      apply insertion_selects in Hdst; [by destruct Hdst|lia|by apply Hin|lia].
  - apply acc_terms_emit_none.
    intros K HK _ Hdst%add_eq_mk.
    apply insertion_selects in Hdst; [|lia|by apply Hin|lia].
    by destruct Hdst.
Qed.

Lemma acc_terms_events_insertion c n qg I a :
  0 ≤ QuantumGate.target qg < n → QuantumGate.target qg < int_bits - 1 →
  n < basis_bits → 0 ≤ I < 2 ^ n →
  acc_terms c I (events_insertion qg n) a
  = Cadd (Cadd a
            (Cmul (QuantumGate.gate qg (Z.b2z (Z.testbit I (QuantumGate.target qg))) 0)
                  (amp c (Basis.add (Basis.set_bit (QuantumGate.target qg) false (Basis.mk I))))))
         (Cmul (QuantumGate.gate qg (Z.b2z (Z.testbit I (QuantumGate.target qg))) 1)
               (amp c (Basis.add (Basis.set_bit (QuantumGate.target qg) true (Basis.mk I))))).
Proof.
  intros Ht Ht' Hn HI. unfold events_insertion. change (seqZ 0 2) with [0; 1].
  rewrite acc_terms_bind. cbn [foldl]. rewrite !acc_terms_bind. cbn [foldl].
  rewrite !(acc_terms_emit_open_slot c n) by done.
  rewrite to_bool_0, to_bool_1.
  by destruct (Z.testbit I (QuantumGate.target qg)).
Qed.

(** The insertion variant, entry by entry, for a target the mask
    expression of [insert] can handle. *)
Lemma apply_1qubit_gate_insertion_entries qg qc :
  wf qc → 0 ≤ QuantumGate.target qg < nqubit_ qc →
  QuantumGate.target qg < int_bits - 1 →
  ∃ qc', apply_1qubit_gate_insertion qg qc = Some qc' ∧ same_but_scratch qc qc' ∧
    ∀ I a, vec_at (new_coeff_ qc) I = Some a →
      let t := QuantumGate.target qg in
      let b := Z.b2z (Z.testbit I t) in
      ∃ c0 c1,
        coeff (Basis.set_bit t false (Basis.mk I)) qc = Some c0 ∧
        coeff (Basis.set_bit t true (Basis.mk I)) qc = Some c1 ∧
        vec_at (new_coeff_ qc') I
        = Some (Cadd (Cadd a (Cmul (QuantumGate.gate qg b 0) c0))
                     (Cmul (QuantumGate.gate qg b 1) c1)).
Proof.
  intros Hwf Ht Ht'.
  destruct (apply_1qubit_gate_insertion_accumulated qg qc Hwf Ht Ht')
    as (qc' & Hrun & Hsame & Hacc).
  exists qc'. split; [done|]. split; [done|].
  intros I a Ha t b.
  destruct (wf_lengths _ Hwf) as [Hlc Hln].
  pose proof (vec_at_lt _ _ _ Ha) as HI. rewrite Hln in HI.
  eexists _, _. split; [|split].
  - apply amp_coeff. rewrite Hlc. apply set_bit_range; [lia|done].
  - apply amp_coeff. rewrite Hlc. apply set_bit_range; [lia|done].
  - rewrite (Hacc I a Ha). f_equal.
    destruct Hwf as (? & _). apply acc_terms_events_insertion; [done..|lia|done].
Qed.

(** Past the width of [int] the first iteration already has no defined
    result. *)
Lemma apply_1qubit_gate_insertion_undefined qg qc :
  1 ≤ nqubit_ qc < basis_bits → int_bits - 1 ≤ QuantumGate.target qg →
  apply_1qubit_gate_insertion qg qc = None.
Proof.
  intros Hn Ht. unfold apply_1qubit_gate_insertion.
  rewrite pow2_size_t_Some by lia. cbn [mbind option_bind].
  change (seqZ 0 2) with [0; 1]. cbn [for_each].
  rewrite seqZ_cons by (apply Z.pow_pos_nonneg; lia). cbn [for_each].
  by rewrite insert_undefined.
Qed.

End Insertion.

(** ** Construction *)

Section Construction.
Context {C : Type} `{Amplitude C}.
Implicit Types (qc : QuantumComputer C).

(** The loop [basis_[i] = Basis(i)] after its first [k] iterations. *)
Lemma fill_basis_loop (k : nat) qc :
  (k ≤ length (basis_ qc))%nat →
  ∃ v, for_each (seqZ 0 (Z.of_nat k))
         (λ i qc, v ← vec_set (basis_ qc) i (Basis.mk i); Some (set_basis v qc)) qc
       = Some (set_basis v qc)
       ∧ length v = length (basis_ qc)
       ∧ ∀ i, (i < k)%nat → v !! i = Some (Basis.mk (Z.of_nat i)).
Proof.
  induction k as [|k IH]; intros Hk.
  - exists (basis_ qc). split; [by destruct qc|]. split; [done|]. lia.
  - destruct IH as (v & Hrun & Hlen & Hv); [lia|].
    rewrite seqZ_S, for_each_app, Hrun. simpl.
    rewrite vec_set_Some by lia. simpl.
    eexists; split; [done|]. split; [by rewrite length_insert|].
    intros i Hi. rewrite Z.add_0_l, Nat2Z.id.
    destruct (decide (i = k)) as [->|Hne].
    + rewrite list_lookup_insert_eq by lia. done.
    + rewrite list_lookup_insert_ne by done. apply Hv. lia.
Qed.

(** The constructor returns, and what it returns satisfies the class
    invariant with a clean scratch buffer and the ground state in
    [coeff_]. *)
Lemma QuantumComputer_new_wf n :
  0 ≤ n < basis_bits →
  ∃ qc, QuantumComputer_new n = Some qc ∧ nqubit_ qc = n ∧ wf qc ∧ scratch_clean qc
        ∧ coeff_ qc = <[0%nat := C1]> (replicate (Z.to_nat (2 ^ n)) C0).
Proof.
  intros Hn. unfold QuantumComputer_new.
  rewrite pow2_size_t_Some by done. cbn [mbind option_bind].
  assert (0 < 2 ^ n) as Hpos by (apply Z.pow_pos_nonneg; lia).
  set (qc0 := mkQC n (2 ^ n) _ _ _).
  destruct (fill_basis_loop (Z.to_nat (2 ^ n)) qc0) as (v & Hrun & Hlen & Hv).
  { simpl. by rewrite length_replicate. }
  rewrite Z2Nat.id in Hrun by lia. rewrite Hrun. cbn [mbind option_bind].
  simpl. rewrite vec_set_Some by (rewrite length_replicate; lia). simpl.
  eexists; split; [done|]. split; [done|]. split; [|split; [done|done]].
  unfold wf; simpl. split; [done|]. split; [done|].
  split; [|by rewrite length_insert, !length_replicate].
  simpl in Hlen. rewrite length_replicate in Hlen.
  apply list_eq. intros i. rewrite list_lookup_fmap.
  destruct (decide (i < Z.to_nat (2 ^ n))%nat) as [Hi|Hi].
  - rewrite Hv by done. rewrite lookup_seqZ_lt by lia. done.
  - rewrite lookup_seqZ_ge by lia. apply lookup_ge_None. lia.
Qed.

End Construction.

(** ** State assignment, dispatch and rendering *)

Section Lifecycle.
Context {C : Type} `{Amplitude C}.
Implicit Types (qc : QuantumComputer C) (qg : QuantumGate.t C).

Lemma set_state_loop (state : list (Basis.t * C)) qc :
  Forall (λ basis_c, 0 ≤ Basis.add basis_c.1 < Z.of_nat (length (coeff_ qc))) state →
  ∃ v, for_each state
         (λ basis_c qc, v ← vec_set (coeff_ qc) (Basis.add basis_c.1) basis_c.2;
                        Some (set_coeff v qc)) qc
       = Some (set_coeff v qc)
       ∧ length v = length (coeff_ qc)
       ∧ ∀ I, vec_at v I
              = match last (filter (λ basis_c, Basis.add basis_c.1 = I) state) with
                | Some basis_c => Some basis_c.2
                | None => vec_at (coeff_ qc) I
                end.
Proof.
  induction state as [|p state IH] using rev_ind; intros Hrange.
  - exists (coeff_ qc). split; [by destruct qc|]. done.
  - apply Forall_app in Hrange as [Hrange Hp].
    apply (proj1 (Forall_singleton _ _)) in Hp.
    destruct (IH Hrange) as (v & Hrun & Hlen & Hv).
    rewrite <-Hlen in Hp.
    rewrite for_each_app, Hrun. cbn [mbind option_bind for_each set_coeff coeff_].
    rewrite vec_set_Some by done. cbn [mbind option_bind].
    eexists; split; [done|]. split; [by rewrite length_insert|].
    intros I. rewrite vec_at_insert by done.
    rewrite filter_app, filter_cons, filter_nil. simpl.
    case_bool_decide as HI; case_decide; try done.
    + by rewrite last_snoc.
    + rewrite app_nil_r. apply Hv.
Qed.

(** Arities other than one: no gate routine runs, the scratch buffer is
    copied over [coeff_] and zeroed again. *)
Lemma apply_gate_not_1qubit qg qc :
  QuantumGate.nqubits qg ≠ 1 →
  apply_gate qg qc
  = Some (mkQC (nqubit_ qc) (nbasis_ qc) (basis_ qc) (new_coeff_ qc)
               (replicate (length (new_coeff_ qc)) C0)).
Proof.
  intros Hn. unfold apply_gate. by rewrite bool_decide_eq_false_2.
Qed.

(** [apply_gate] keeps the class invariant and hands back a clean scratch
    buffer. *)
Lemma apply_gate_wf qg qc :
  wf qc →
  (QuantumGate.nqubits qg = 1 → 0 ≤ QuantumGate.target qg < nqubit_ qc) →
  ∃ qc', apply_gate qg qc = Some qc' ∧ wf qc' ∧ scratch_clean qc'
         ∧ nqubit_ qc' = nqubit_ qc.
Proof.
  intros Hwf Ht. unfold apply_gate. case_bool_decide as Harity.
  - destruct (apply_1qubit_gate_accumulated qg qc Hwf (Ht Harity))
      as (qc1 & -> & Hs & _). simpl.
    pose proof (wf_same_but_scratch _ _ Hwf Hs) as (?&?&?&?&Hl).
    eexists; split; [done|]. unfold wf, scratch_clean, vec_fill; simpl.
    rewrite length_replicate, Hl. destruct Hs as (?&_). done.
  - simpl. destruct Hwf as (?&?&?&?&Hl).
    eexists; split; [done|]. unfold wf, scratch_clean, vec_fill; simpl.
    rewrite length_replicate, Hl. done.
Qed.

Context `{Printing C}.

Lemma str_loop (k : nat) (print_threshold_ : threshold) qc :
  wf qc → Z.of_nat k ≤ nbasis_ qc →
  for_each (seqZ 0 (Z.of_nat k)) (λ i terms,
      c ← vec_at (coeff_ qc) i;
      if abs_ge c print_threshold_ then
        b ← vec_at (basis_ qc) i;
        s ← Basis.str (wrap_basis (nqubit_ qc)) b;
        Some (terms ++ [format_term c s])
      else Some terms) []
  = Some (rendered_term qc <$>
            filter (λ i, abs_ge (amp (coeff_ qc) i) print_threshold_ = true)
                   (seqZ 0 (Z.of_nat k))).
Proof.
  intros Hwf. induction k as [|k IH]; intros Hk; [done|].
  rewrite seqZ_S, Z.add_0_l, for_each_app, IH by lia.
  cbn [mbind option_bind for_each].
  rewrite filter_app, filter_cons, filter_nil, fmap_app.
  destruct (wf_lengths _ Hwf) as [Hlc _].
  pose proof Hwf as (Hn & Enb & Ebasis & _).
  destruct (vec_at_is_Some (coeff_ qc) (Z.of_nat k)) as [c Hc]; [lia|].
  assert (amp (coeff_ qc) (Z.of_nat k) = c) as Hamp by (unfold amp; by rewrite Hc).
  rewrite Hc, Hamp. cbn [mbind option_bind].
  case_decide as Habs; [rewrite Habs|apply not_true_is_false in Habs; rewrite Habs].
  - assert (vec_at (basis_ qc) (Z.of_nat k) = Some (Basis.mk (Z.of_nat k))) as ->.
    { unfold vec_at. rewrite bool_decide_eq_true_2 by lia.
      rewrite Ebasis, list_lookup_fmap, lookup_seqZ_lt by lia.
      simpl. do 2 f_equal. lia. }
    cbn [mbind option_bind fmap list_fmap].
    assert (rendered_term qc (Z.of_nat k)
            = format_term c (default ""%string
                               (Basis.str (nqubit_ qc) (Basis.mk (Z.of_nat k))))) as ->.
    { unfold rendered_term. by rewrite Hamp. }
    assert (wrap_basis (nqubit_ qc) = nqubit_ qc) as ->.
    { apply Z.mod_small. unfold basis_bits in *. lia. }
    unfold Basis.str. rewrite bool_decide_eq_true_2; [done|].
    unfold INT_MAX, int_bits, basis_bits in *. simpl. lia.
  - by rewrite app_nil_r.
Qed.

End Lifecycle.

(** ** [Basis::str] *)

Lemma string_length_append (s1 s2 : string) :
  String.length (s1 +:+ s2) = (String.length s1 + String.length s2)%nat.
Proof. induction s1 as [|a s1 IH]; simpl; [done|]. by rewrite IH. Qed.

(** The string built by the first [k] iterations of the loop of
    [Basis::str]. *)
Lemma str_loop_chars (b : Basis.t) (k : nat) :
  let s := foldl (λ s i, if Basis.get_bit i b then s +:+ "1" else s +:+ "0")
                 "|"%string (seqZ 0 (Z.of_nat k)) in
  String.length s = S k
  ∧ String.get 0 s = Some "|"%char
  ∧ ∀ i, (i < k)%nat →
      String.get (S i) s = Some (bit_char (Basis.get_bit (Z.of_nat i) b)).
Proof.
  induction k as [|k IH]; simpl.
  - split; [done|]. split; [done|]. lia.
  - destruct IH as (Hlen & H0 & Hi).
    rewrite seqZ_S, foldl_snoc, Z.add_0_l.
    set (s := foldl _ _ (seqZ 0 (Z.of_nat k))) in *.
    assert ((if Basis.get_bit (Z.of_nat k) b then s +:+ "1" else s +:+ "0")
            = s +:+ String (bit_char (Basis.get_bit (Z.of_nat k) b)) EmptyString) as ->.
    { by destruct (Basis.get_bit (Z.of_nat k) b). }
    split; [|split].
    + rewrite string_length_append, Hlen. simpl. lia.
    + rewrite <-String.append_correct1 by lia. done.
    + intros i Hik. destruct (decide (i = k)) as [->|Hne].
      * pose proof (String.append_correct2 s
          (String (bit_char (Basis.get_bit (Z.of_nat k) b)) EmptyString) 0) as Hget.
        rewrite Hlen in Hget. simpl in Hget. by rewrite <-Hget.
      * rewrite <-String.append_correct1 by lia. apply Hi. lia.
Qed.

(** ** The two-qubit scan *)

Section TwoQubit.
Context {C : Type} `{Amplitude C}.
Implicit Types (qc : QuantumComputer C) (qg : QuantumGate.t C).

Lemma two_qubits_basis_lookup i :
  0 ≤ i < 4 →
  vec_at QuantumGate.two_qubits_basis i = Some (i / 2, i mod 2).
Proof.
  intros Hi. assert (i = 0 ∨ i = 1 ∨ i = 2 ∨ i = 3) as [->|[->|[->| ->]]] by lia;
    by vm_compute.
Qed.

(** The two-qubit routine runs to completion and performs exactly the
    accumulations of [events_2qubit]. *)
Lemma apply_2qubit_gate_accumulated qg qc :
  wf qc → 0 ≤ QuantumGate.control qg < nqubit_ qc →
  0 ≤ QuantumGate.target qg < nqubit_ qc →
  ∃ qc', apply_2qubit_gate qg qc = Some qc'
         ∧ accumulated (events_2qubit qg (basis_ qc)) qc qc'.
Proof.
  intros Hwf Hc Ht. unfold apply_2qubit_gate.
  set (sel := λ (j_c j_t : Z) (bJ : Basis.t),
         bool_eq_size_t (Basis.get_bit (QuantumGate.control qg) bJ) j_c
         && bool_eq_size_t (Basis.get_bit (QuantumGate.target qg) bJ) j_t).
  set (dst := λ (i_c i_t : Z) (bJ : Basis.t),
         Basis.set_bit (QuantumGate.target qg) (to_bool i_t)
           (Basis.set_bit (QuantumGate.control qg) (to_bool i_c) bJ)).
  set (inner := λ (i i_c i_t j : Z),
         scan (sel (j / 2) (j mod 2)) (dst i_c i_t) (QuantumGate.gate qg i j) (basis_ qc)).
  assert (events_2qubit qg (basis_ qc)
          = seqZ 0 4 ≫= λ i, seqZ 0 4 ≫= inner i (i / 2) (i mod 2)) as -> by done.
  apply for_each_accumulated. intros i qc1 Hi Hs1.
  rewrite two_qubits_basis_lookup by (by apply elem_of_seqZ in Hi).
  cbn [mbind option_bind].
  apply for_each_accumulated. intros j qc2 Hj Hs2.
  rewrite two_qubits_basis_lookup by (by apply elem_of_seqZ in Hj).
  cbn [mbind option_bind].
  pose proof (same_but_scratch_trans _ _ _ Hs1 Hs2) as Hs.
  pose proof (wf_same_but_scratch _ _ Hwf Hs) as Hwf2.
  destruct (wf_lengths _ Hwf2) as [Hlc Hln].
  destruct Hs as (En&_&Ebs&_&_). unfold inner. rewrite <-Ebs.
  apply (for_each_scan (sel (j / 2) (j mod 2)) (dst (i / 2) (i mod 2))).
  intros bJ Hin _. rewrite Hlc, Hln.
  destruct Hwf2 as (?&Enb&Ebasis&_). rewrite Ebasis, Enb in Hin.
  apply elem_of_basis in Hin. split; [|done].
  unfold dst. apply set_bit_range; [lia|]. apply set_bit_range; [lia|done].
Qed.

End TwoQubit.

(** ** Who contributes to what *)

Section Contributions.
Context {C : Type} `{Amplitude C}.
Implicit Types (qc : QuantumComputer C) (qg : QuantumGate.t C).

Lemma contributions_of_app bJ (evs1 evs2 : list (@event C)) :
  contributions_of bJ (evs1 ++ evs2)
  = contributions_of bJ evs1 ++ contributions_of bJ evs2.
Proof. apply filter_app. Qed.

Lemma contributions_of_scan_notin bJ sel dst (op : C) l :
  bJ ∉ l → contributions_of bJ (scan sel dst op l) = [].
Proof.
  unfold scan. induction l as [|x l IH]; intros Hnot; [done|].
  apply not_elem_of_cons in Hnot as [Hne Hnot].
  rewrite bind_cons, contributions_of_app, IH, app_nil_r by done.
  destruct (sel x); [|done]. unfold contributions_of.
  rewrite filter_cons, filter_nil. simpl. by rewrite decide_False by done.
Qed.

Lemma contributions_of_scan bJ sel dst (op : C) l :
  NoDup l → bJ ∈ l →
  contributions_of bJ (scan sel dst op l)
  = if sel bJ then [(dst bJ, bJ, op)] else [].
Proof.
  intros Hnd Hin. apply list_elem_of_split in Hin as (l1 & l2 & ->).
  apply NoDup_app in Hnd as (_ & Hnot & Hnd2).
  apply NoDup_cons in Hnd2 as [Hnot2 _].
  unfold scan. rewrite bind_app, bind_cons, !contributions_of_app.
  fold (scan sel dst op l1). fold (scan sel dst op l2).
  rewrite !contributions_of_scan_notin; [|done|].
  2:{ intros Hin1. apply (Hnot bJ); [done|left]. }
  rewrite app_nil_r. simpl. destruct (sel bJ); [|done].
  unfold contributions_of. rewrite filter_cons, filter_nil. simpl.
  by rewrite decide_True by done.
Qed.

(** Every basis state feeds exactly two accumulations of the dense scan:
    the entries of the matrix column named by its target bit, first into
    the index with the target bit clear, then into the one with it
    set. *)
Lemma contributions_of_events_1qubit qg n J :
  0 ≤ J < 2 ^ n →
  contributions_of (Basis.mk J) (events_1qubit qg (Basis.mk <$> seqZ 0 (2 ^ n)))
  = [(Basis.set_bit (QuantumGate.target qg) false (Basis.mk J), Basis.mk J,
      QuantumGate.gate qg 0 (Z.b2z (Z.testbit J (QuantumGate.target qg))));
     (Basis.set_bit (QuantumGate.target qg) true (Basis.mk J), Basis.mk J,
      QuantumGate.gate qg 1 (Z.b2z (Z.testbit J (QuantumGate.target qg))))].
Proof.
  intros HJ. unfold events_1qubit. change (seqZ 0 2) with [0; 1].
  rewrite !bind_cons. cbn [mbind list_bind]. rewrite !app_nil_r.
  rewrite !contributions_of_app.
  rewrite !contributions_of_scan by (apply NoDup_basis || by apply elem_of_basis).
  unfold bool_eq_size_t, Basis.get_bit; simpl.
  rewrite to_bool_0, to_bool_1.
  by destruct (Z.testbit J (QuantumGate.target qg)).
Qed.

End Contributions.

(** ** The two-qubit scan, entry by entry *)

Lemma two_bit_selects ct tt (ic it jc jt : bool) (bI bJ : Basis.t) :
  0 ≤ ct → 0 ≤ tt → ct ≠ tt →
  (Basis.get_bit ct bJ = jc ∧ Basis.get_bit tt bJ = jt
   ∧ Basis.set_bit tt it (Basis.set_bit ct ic bJ) = bI)
  ↔ (Basis.get_bit ct bI = ic ∧ Basis.get_bit tt bI = it
     ∧ bJ = Basis.set_bit tt jt (Basis.set_bit ct jc bI)).
Proof.
  intros Hc Ht Hne. unfold Basis.get_bit. split.
  - intros (Hjc & Hjt & <-). split; [|split].
    + rewrite !testbit_set_bit by done.
      rewrite bool_decide_eq_false_2 by done. by rewrite bool_decide_eq_true_2.
    + rewrite testbit_set_bit by done. by rewrite bool_decide_eq_true_2.
    + apply basis_eq. intros k Hk. rewrite !testbit_set_bit by done.
      repeat case_bool_decide; by subst.
  - intros (Hic & Hit & ->). split; [|split].
    + rewrite !testbit_set_bit by done.
      rewrite bool_decide_eq_false_2 by done. by rewrite bool_decide_eq_true_2.
    + rewrite testbit_set_bit by done. by rewrite bool_decide_eq_true_2.
    + apply basis_eq. intros k Hk. rewrite !testbit_set_bit by done.
      repeat case_bool_decide; by subst.
Qed.

Section TwoQubitEntries.
Context {C : Type} `{Amplitude C}.
Implicit Types (qc : QuantumComputer C) (qg : QuantumGate.t C).

Lemma b2z_eq_to_bool (b : bool) (z : Z) :
  0 ≤ z ≤ 1 → Z.b2z b = z ↔ b = to_bool z.
Proof.
  intros Hz. assert (z = 0 ∨ z = 1) as [-> | ->] by lia; by destruct b.
Qed.

(** What one scan that filters on both bits and rewrites both adds to
    entry [I]. *)
Lemma acc_terms_scan_set_2bits c n ct tt (ic it jc jt : Z) op I a :
  0 ≤ ct < n → 0 ≤ tt < n → ct ≠ tt → 0 ≤ I < 2 ^ n →
  0 ≤ ic ≤ 1 → 0 ≤ it ≤ 1 → 0 ≤ jc ≤ 1 → 0 ≤ jt ≤ 1 →
  acc_terms c I
    (scan (λ bJ, bool_decide (Z.b2z (Basis.get_bit ct bJ) = jc)
                 && bool_decide (Z.b2z (Basis.get_bit tt bJ) = jt))
          (λ bJ, Basis.set_bit tt (to_bool it) (Basis.set_bit ct (to_bool ic) bJ))
          op (Basis.mk <$> seqZ 0 (2 ^ n))) a
  = if bool_decide (Z.testbit I ct = to_bool ic ∧ Z.testbit I tt = to_bool it)
    then Cadd a (Cmul op (amp c (Basis.add
           (Basis.set_bit tt (to_bool jt) (Basis.set_bit ct (to_bool jc) (Basis.mk I))))))
    else a.
Proof.
  intros Hc Ht Hne HI Hic Hit Hjc Hjt. rewrite scan_emit.
  assert (∀ bJ, bool_decide (Z.b2z (Basis.get_bit ct bJ) = jc)
                && bool_decide (Z.b2z (Basis.get_bit tt bJ) = jt) = true
                ↔ Basis.get_bit ct bJ = to_bool jc ∧ Basis.get_bit tt bJ = to_bool jt)
    as Hsel.
  { intros bJ. rewrite andb_true_iff, !bool_decide_eq_true.
    by rewrite !b2z_eq_to_bool. }
  pose proof (λ bJ, two_bit_selects ct tt (to_bool ic) (to_bool it) (to_bool jc)
                      (to_bool jt) (Basis.mk I) bJ
                      ltac:(lia) ltac:(lia) Hne) as Hsel2.
  case_bool_decide as Hbits.
  - destruct Hbits as [Hb1 Hb2].
    destruct (proj2 (Hsel2 _) (conj Hb1 (conj Hb2 eq_refl))) as (Hs1 & Hs2 & Hs3).
    apply (acc_terms_emit_unique _ _ _ _ id _ _ _
             (Basis.set_bit tt (to_bool jt) (Basis.set_bit ct (to_bool jc) (Basis.mk I)))).
    + apply NoDup_basis.
    + apply elem_of_basis. apply set_bit_range; [lia|]. by apply set_bit_range.
    + by apply Hsel.
    + by apply add_eq_mk.
    + intros bJ' _ Hsel' Hdst%add_eq_mk. apply Hsel in Hsel' as [??].
      by apply (proj1 (Hsel2 bJ')).
  - apply acc_terms_emit_none.
    intros bJ' _ Hsel' Hdst%add_eq_mk. apply Hsel in Hsel' as [??].
    apply Hbits.
    destruct (proj1 (Hsel2 bJ')) as (?&?&?); done.
Qed.

(** Entry [I] after the sixteen passes: the four terms of the matrix row
    named by [I]'s (control, target) bits, in the order of the
    combinations. *)
Lemma acc_terms_events_2qubit c n qg I a :
  0 ≤ QuantumGate.control qg < n → 0 ≤ QuantumGate.target qg < n →
  QuantumGate.control qg ≠ QuantumGate.target qg → 0 ≤ I < 2 ^ n →
  let row := 2 * Z.b2z (Z.testbit I (QuantumGate.control qg))
             + Z.b2z (Z.testbit I (QuantumGate.target qg)) in
  let src := λ j_c j_t : bool,
    amp c (Basis.add (Basis.set_bit (QuantumGate.target qg) j_t
                        (Basis.set_bit (QuantumGate.control qg) j_c (Basis.mk I)))) in
  acc_terms c I (events_2qubit qg (Basis.mk <$> seqZ 0 (2 ^ n))) a
  = Cadd (Cadd (Cadd (Cadd a
      (Cmul (QuantumGate.gate qg row 0) (src false false)))
      (Cmul (QuantumGate.gate qg row 1) (src false true)))
      (Cmul (QuantumGate.gate qg row 2) (src true false)))
      (Cmul (QuantumGate.gate qg row 3) (src true true)).
Proof.
  intros Hc Ht Hne HI. cbv zeta. unfold events_2qubit.
change combinations with [(0, (0, 0)); (1, (0, 1)); (2, (1, 0)); (3, (1, 1))].
rewrite acc_terms_bind. cbn [foldl]. rewrite !acc_terms_bind. cbn [foldl].
destruct (Z.testbit I (QuantumGate.control qg)) eqn:Hbc,
         (Z.testbit I (QuantumGate.target qg)) eqn:Hbt;
  repeat (rewrite (acc_terms_scan_set_2bits c n) by (done || lia);
          rewrite Hbc, Hbt;
          first [ rewrite bool_decide_eq_true_2 by (by split)
                | rewrite bool_decide_eq_false_2
                    by (intros [E1 E2]; cbv in E1, E2; congruence) ]);
  done.
Qed.

End TwoQubitEntries.

(** * The claims *)

Section Claims.
Context {C : Type} `{Amplitude C}.
Implicit Types (qc : QuantumComputer C) (qg : QuantumGate.t C).

(** C1.  From a clean scratch buffer, [apply_1qubit_gate] with target [t]
    below the qubit count runs to completion and leaves, at every basis
    index [I], [op[b][0] * coeff_[J0] + op[b][1] * coeff_[J1]], where [b]
    is bit [t] of [I] and [J0], [J1] are [I] with bit [t] forced to 0 and
    to 1.  The accumulations it performs are those of [events_1qubit],
    among which every basis state [J] is read exactly twice: for
    [i = 0] and for [i = 1], with [j] the target bit of [J]. *)
Theorem apply_1qubit_gate_spec qg qc :
  (∀ x, Cadd C0 x = x) →
  wf qc → scratch_clean qc →
  0 ≤ QuantumGate.target qg < nqubit_ qc →
  ∃ qc', apply_1qubit_gate qg qc = Some qc'
    ∧ same_but_scratch qc qc'
    ∧ (∀ I, 0 ≤ I < 2 ^ nqubit_ qc →
         let t := QuantumGate.target qg in
         let b := Z.b2z (Z.testbit I t) in
         ∃ c0 c1,
           coeff (Basis.set_bit t false (Basis.mk I)) qc = Some c0 ∧
           coeff (Basis.set_bit t true (Basis.mk I)) qc = Some c1 ∧
           vec_at (new_coeff_ qc') I
           = Some (Cadd (Cmul (QuantumGate.gate qg b 0) c0)
                        (Cmul (QuantumGate.gate qg b 1) c1)))
    ∧ accumulated (events_1qubit qg (basis_ qc)) qc qc'
    ∧ (∀ J, 0 ≤ J < 2 ^ nqubit_ qc →
         let t := QuantumGate.target qg in
         let j := Z.b2z (Z.testbit J t) in
         contributions_of (Basis.mk J) (events_1qubit qg (basis_ qc))
         = [(Basis.set_bit t false (Basis.mk J), Basis.mk J, QuantumGate.gate qg 0 j);
            (Basis.set_bit t true (Basis.mk J), Basis.mk J, QuantumGate.gate qg 1 j)]).
Proof.
  intros Hid Hwf Hclean Ht.
  destruct (apply_1qubit_gate_entries qg qc Hwf Ht) as (qc' & Hrun & Hsame & Hent).
  destruct (apply_1qubit_gate_accumulated qg qc Hwf Ht) as (qc'' & Hrun' & Hacc).
  assert (qc'' = qc') as -> by congruence.
  exists qc'. split; [done|]. split; [done|]. split; [|split; [done|]].
  - intros I HI t b.
    assert (vec_at (new_coeff_ qc) I = Some C0) as Hzero.
    { rewrite Hclean. apply vec_at_replicate.
      destruct Hwf as (Hn & -> & _).
      assert (0 < 2 ^ nqubit_ qc) by (apply Z.pow_pos_nonneg; lia). lia. }
    destruct (Hent I C0 Hzero) as (c0 & c1 & Hc0 & Hc1 & Hnew).
    exists c0, c1. split; [done|]. split; [done|].
    rewrite Hnew. by rewrite Hid.
  - intros J HJ t j. destruct Hwf as (_ & Enb & -> & _). rewrite Enb.
    by apply contributions_of_events_1qubit.
Qed.

(** X17.  While the target is below 31, where the mask of [Basis::insert] is
    defined, the dense scan and the insertion variant run to completion on
    every well-formed register and leave the same object behind, whatever
    the scratch buffer held. *)
Lemma apply_1qubit_gate_insertion_agrees qg qc :
  wf qc → 0 ≤ QuantumGate.target qg < nqubit_ qc →
  QuantumGate.target qg < int_bits - 1 →
  ∃ qc', apply_1qubit_gate qg qc = Some qc'
         ∧ apply_1qubit_gate_insertion qg qc = Some qc'.
Proof.
  intros Hwf Ht Ht'.
  destruct (apply_1qubit_gate_entries qg qc Hwf Ht) as (qc1 & Hrun1 & Hs1 & Hent1).
  destruct (apply_1qubit_gate_insertion_entries qg qc Hwf Ht Ht')
    as (qc2 & Hrun2 & Hs2 & Hent2).
  exists qc1. split; [done|]. rewrite Hrun2. f_equal.
  destruct Hs1 as (En1 & Enb1 & Eb1 & Ec1 & El1).
  destruct Hs2 as (En2 & Enb2 & Eb2 & Ec2 & El2).
  destruct qc1 as [n1 nb1 b1 c1 v1], qc2 as [n2 nb2 b2 c2 v2]; simpl in *.
  f_equal; try congruence.
  apply list_eq. intros i.
  destruct (decide (i < length (new_coeff_ qc))%nat) as [Hi|Hi].
  - destruct (lookup_lt_is_Some_2 (new_coeff_ qc) i Hi) as [a Ha].
    assert (vec_at (new_coeff_ qc) (Z.of_nat i) = Some a) as Hat.
    { apply vec_at_Some. by rewrite Nat2Z.id; split; [lia|]. }
    destruct (Hent1 _ _ Hat) as (x0 & x1 & Hx0 & Hx1 & Hv1).
    destruct (Hent2 _ _ Hat) as (y0 & y1 & Hy0 & Hy1 & Hv2).
    assert (y0 = x0) as -> by congruence. assert (y1 = x1) as -> by congruence.
    apply vec_at_Some in Hv1 as [_ Hv1]. apply vec_at_Some in Hv2 as [_ Hv2].
    rewrite Nat2Z.id in Hv1, Hv2. congruence.
  - rewrite !(proj2 (lookup_ge_None _ _)) by lia. done.
Qed.

(** C5.  For a qubit count [N] whose [2^N] fits [size_t], the constructor
    returns a register with [nbasis_ = 2^N], three arrays of [2^N]
    entries, [coeff_[0] = 1], every other amplitude zero, and
    [basis_[i] = Basis(i)] throughout. *)
Theorem QuantumComputer_new_spec (N : Z) :
  0 ≤ N < basis_bits →
  ∃ qc : QuantumComputer C, QuantumComputer_new N = Some qc
    ∧ nqubit_ qc = N
    ∧ nbasis_ qc = 2 ^ N
    ∧ Z.of_nat (length (coeff_ qc)) = 2 ^ N
    ∧ Z.of_nat (length (new_coeff_ qc)) = 2 ^ N
    ∧ Z.of_nat (length (basis_ qc)) = 2 ^ N
    ∧ vec_at (coeff_ qc) 0 = Some C1
    ∧ (∀ i, 0 < i < 2 ^ N → vec_at (coeff_ qc) i = Some C0)
    ∧ (∀ i, 0 ≤ i < 2 ^ N → vec_at (basis_ qc) i = Some (Basis.mk i)).
Proof.
  intros HN.
  destruct (QuantumComputer_new_wf N HN) as (qc & Hnew & En & Hwf & _ & Ec).
  assert (0 < 2 ^ N) as Hpos by (apply Z.pow_pos_nonneg; lia).
  destruct (wf_lengths _ Hwf) as [Hlc Hln]. rewrite En in Hlc, Hln.
  destruct Hwf as (_ & Enb & Ebasis & _). rewrite En in Enb.
  exists qc. repeat (split; [done|]). split; [|split; [|split]].
  - rewrite Ebasis, length_fmap, length_seqZ, Enb. lia.
  - rewrite Ec. change 0%nat with (Z.to_nat 0).
    rewrite vec_at_insert by (rewrite length_replicate; lia).
    by rewrite bool_decide_eq_true_2.
  - intros i Hi. rewrite Ec. change 0%nat with (Z.to_nat 0).
    rewrite vec_at_insert by (rewrite length_replicate; lia).
    rewrite bool_decide_eq_false_2 by lia. apply vec_at_replicate. lia.
  - intros i Hi. unfold vec_at. rewrite bool_decide_eq_true_2 by lia.
    rewrite Ebasis, Enb, list_lookup_fmap, lookup_seqZ_lt by lia.
    simpl. do 2 f_equal. lia.
Qed.

(** C6.  When every pair of the input names an index of [coeff_],
    [set_state] returns and leaves at each index the amplitude of the
    last pair with that index, and zero at the indices no pair mentions,
    whatever [coeff_] held; nothing else of the register changes. *)
Theorem set_state_spec (state : list (Basis.t * C)) qc :
  Forall (λ basis_c, 0 ≤ Basis.add basis_c.1 < Z.of_nat (length (coeff_ qc))) state →
  ∃ qc', set_state state qc = Some qc'
    ∧ nqubit_ qc' = nqubit_ qc ∧ nbasis_ qc' = nbasis_ qc
    ∧ basis_ qc' = basis_ qc ∧ new_coeff_ qc' = new_coeff_ qc
    ∧ length (coeff_ qc') = length (coeff_ qc)
    ∧ ∀ I, 0 ≤ I < Z.of_nat (length (coeff_ qc)) →
           vec_at (coeff_ qc') I = Some (last_amplitude state I).
Proof.
  intros Hrange. unfold set_state.
  destruct (set_state_loop state (set_coeff (vec_fill (coeff_ qc) C0) qc))
    as (v & -> & Hlen & Hv).
  { simpl. unfold vec_fill. by rewrite length_replicate. }
  simpl in Hlen. unfold vec_fill in Hlen. rewrite length_replicate in Hlen.
  eexists; split; [done|]. simpl. repeat (split; [done|]).
  intros I HI. rewrite Hv. unfold last_amplitude.
  destruct (last _); [done|]. unfold vec_fill. apply vec_at_replicate. lia.
Qed.

(** C7.  With control and target below the qubit count,
    [apply_2qubit_gate] runs to completion and performs exactly the
    accumulations of [events_2qubit], in that order: one term
    [op[i][j] * coeff_[J]] into [J] with its (control, target) bits
    overwritten by combination [i], for every pair [(i, j)] and every [J]
    whose (control, target) bits are combination [j], and nothing else.
    When control and target differ, entry [I] thereby receives the four
    terms of the matrix row its own (control, target) bits name. *)
Theorem apply_2qubit_gate_spec qg qc :
  wf qc →
  0 ≤ QuantumGate.control qg < nqubit_ qc →
  0 ≤ QuantumGate.target qg < nqubit_ qc →
  ∃ qc', apply_2qubit_gate qg qc = Some qc'
    ∧ accumulated (events_2qubit qg (basis_ qc)) qc qc'
    ∧ (QuantumGate.control qg ≠ QuantumGate.target qg →
       ∀ I a, vec_at (new_coeff_ qc) I = Some a →
         let row := 2 * Z.b2z (Z.testbit I (QuantumGate.control qg))
                    + Z.b2z (Z.testbit I (QuantumGate.target qg)) in
         let src := λ j_c j_t : bool,
           amp (coeff_ qc)
             (Basis.add (Basis.set_bit (QuantumGate.target qg) j_t
                           (Basis.set_bit (QuantumGate.control qg) j_c (Basis.mk I)))) in
         vec_at (new_coeff_ qc') I
         = Some (Cadd (Cadd (Cadd (Cadd a
             (Cmul (QuantumGate.gate qg row 0) (src false false)))
             (Cmul (QuantumGate.gate qg row 1) (src false true)))
             (Cmul (QuantumGate.gate qg row 2) (src true false)))
             (Cmul (QuantumGate.gate qg row 3) (src true true)))).
Proof.
  intros Hwf Hc Ht.
  destruct (apply_2qubit_gate_accumulated qg qc Hwf Hc Ht) as (qc' & Hrun & Hacc).
  exists qc'. split; [done|]. split; [done|].
  intros Hne I a Ha row src. destruct Hacc as [_ Hacc].
  rewrite (Hacc I a Ha). f_equal.
  destruct (wf_lengths _ Hwf) as [_ Hln].
  pose proof (vec_at_lt _ _ _ Ha) as HI. rewrite Hln in HI.
  destruct Hwf as (_ & Enb & -> & _). rewrite Enb.
  by apply acc_terms_events_2qubit.
Qed.

(** C9.  On a well-formed register [str] returns one rendered term for
    each basis index whose amplitude passes the magnitude test against
    the threshold, in ascending index order, and no other term.  The
    method is [const]: it is a function of the register and returns
    nothing but the terms. *)
Theorem str_spec `{Printing C} (print_threshold_ : threshold) qc :
  wf qc →
  str print_threshold_ qc
  = Some (rendered_term qc <$>
            filter (λ i, abs_ge (amp (coeff_ qc) i) print_threshold_ = true)
                   (seqZ 0 (nbasis_ qc))).
Proof.
  intros Hwf. unfold str.
  assert (0 ≤ nbasis_ qc) as Hnb.
  { destruct Hwf as (? & -> & _). apply Z.pow_nonneg. lia. }
  pose proof (str_loop (Z.to_nat (nbasis_ qc)) print_threshold_ qc Hwf) as Hloop.
  rewrite Z2Nat.id in Hloop by done. apply Hloop. lia.
Qed.

(** C10.  For a gate whose declared qubit count is not 1, [apply_gate]
    runs no gate routine: whatever the gate's matrix, control and target,
    it copies the scratch buffer over [coeff_] and zeroes the scratch, so
    that from a clean scratch buffer [coeff_] ends as the all-zero
    vector. *)
Theorem apply_gate_other_arity qg qc :
  wf qc → scratch_clean qc →
  QuantumGate.nqubits qg ≠ 1 →
  apply_gate qg qc
  = Some (mkQC (nqubit_ qc) (nbasis_ qc) (basis_ qc)
               (replicate (Z.to_nat (2 ^ nqubit_ qc)) C0)
               (replicate (Z.to_nat (2 ^ nqubit_ qc)) C0)).
Proof.
  intros Hwf Hclean Harity. rewrite apply_gate_not_1qubit by done.
  destruct Hwf as (_ & Enb & _ & _ & Hl). rewrite Hl, Hclean, Enb. done.
Qed.

End Claims.

(** C3, as amended.  For a basis value below [2^(N-1)], [N] at most the
    width of [basis_t], and a position from 0 to 30, [insert] returns the
    value whose bits below [pos] are those of the receiver, whose bit at
    [pos] is a copy of the receiver's bit [pos - 1] (clear when [pos] is
    0), and whose bits above [pos] are the receiver's bits from [pos] on,
    moved up by one; the value is below [2^N]. *)
Theorem insert_spec (N pos : Z) (v : Basis.t) :
  1 ≤ N ≤ basis_bits →
  0 ≤ Basis.state_ v < 2 ^ (N - 1) →
  0 ≤ pos < int_bits - 1 →
  ∃ r, Basis.insert pos v = Some r
       ∧ (∀ k, 0 ≤ k < pos → Basis.get_bit k r = Basis.get_bit k v)
       ∧ Basis.get_bit pos r = Basis.get_bit (pos - 1) v
       ∧ (∀ k, pos < k → Basis.get_bit k r = Basis.get_bit (k - 1) v)
       ∧ 0 ≤ Basis.state_ r < 2 ^ N.
Proof.
  intros HN Hv Hpos. destruct v as [s]; simpl in *.
  assert (2 ^ (N - 1) ≤ 2 ^ (basis_bits - 1)) as Hle by (apply Z.pow_le_mono_r; lia).
  destruct (insert_bits pos s Hpos) as (r & Hins & Hr & Hbits); [lia|].
  exists (Basis.mk r). split; [done|]. unfold Basis.get_bit; simpl.
  split; [|split; [|split; [|split; [done|]]]].
  - intros k Hk. rewrite Hbits by lia. by rewrite bool_decide_eq_true_2 by lia.
  - rewrite Hbits by lia. by rewrite bool_decide_eq_false_2 by lia.
  - intros k Hk. rewrite Hbits by lia. by rewrite bool_decide_eq_false_2 by lia.
  - apply below_pow2_bits; [lia|done|]. intros k Hk. rewrite Hbits by lia.
    assert (s < 2 ^ (N - 1)) as Hs by lia.
    pose proof (proj1 (below_pow2_bits (N - 1) s ltac:(lia) ltac:(lia)) Hs) as Hhigh.
    case_bool_decide; apply Hhigh; lia.
Qed.

(** C4, as amended.  [set_bit] and [insert] update their receiver in
    place.  After [set_bit(pos, val)] bit [pos] of the receiver is [val].
    After [insert(pos)], for a position from 0 to 30 and a receiver below
    [2^63], the receiver holds the inserted value, and it holds its old
    value only when it had no bit set at position [pos - 1] or above. *)
Theorem insert_mutates_receiver (pos : Z) (b : Basis.t) :
  0 ≤ pos < int_bits - 1 →
  0 ≤ Basis.state_ b < 2 ^ (basis_bits - 1) →
  (∀ val, Basis.get_bit pos (Basis.set_bit pos val b) = val)
  ∧ ∃ b', Basis.insert pos b = Some b'
          ∧ (Basis.state_ b' = Basis.state_ b
             ↔ ∀ k, pos - 1 ≤ k → Basis.get_bit k b = false).
Proof.
  intros Hpos Hb. split.
  { intros val. unfold Basis.get_bit. rewrite testbit_set_bit by lia.
    by rewrite bool_decide_eq_true_2. }
  destruct b as [s]; simpl in *.
  destruct (insert_bits pos s Hpos Hb) as (r & Hins & Hr & Hbits).
  exists (Basis.mk r). split; [done|]. unfold Basis.get_bit; simpl. split.
  - intros ->. intros k Hk.
    destruct (decide (s = 0)) as [->|Hs]; [apply Z.bits_0|].
    assert (0 < s) as Hs' by lia.
    pose proof (Z.bit_log2 s Hs') as Htop.
    pose proof (Z.log2_nonneg s) as Hlog.
    destruct (decide (Z.log2 s < k)) as [Hlt|Hge].
    { apply Z.bits_above_log2; lia. }
    exfalso.
    assert (Z.testbit s (Z.log2 s + 1) = true) as Habove.
    { rewrite Hbits by lia. rewrite bool_decide_eq_false_2 by lia.
      by replace (Z.log2 s + 1 - 1) with (Z.log2 s) by lia. }
    rewrite Z.bits_above_log2 in Habove by lia. done.
  - intros Hclear. apply Z.bits_inj'. intros k Hk. rewrite Hbits by lia.
    case_bool_decide; [done|].
    rewrite (Hclear k) by lia. apply Hclear. lia.
Qed.

(** C8, as amended.  For a qubit count within the range of the loop
    counter, [Basis::str] renders the ket least-significant qubit first:
    the string is ['|'], then the bit of qubit [i] at offset [1 + i] for
    every [i] below [nqubit], then ['>']; the character after ['|'] is
    bit 0 and the one before ['>'] is bit [nqubit - 1]. *)
Theorem str_lsb_first (nqubit : Z) (b : Basis.t) :
  0 ≤ nqubit ≤ INT_MAX →
  ∃ s, Basis.str nqubit b = Some s
       ∧ String.length s = (Z.to_nat nqubit + 2)%nat
       ∧ String.get 0 s = Some "|"%char
       ∧ String.get (S (Z.to_nat nqubit)) s = Some ">"%char
       ∧ ∀ i, 0 ≤ i < nqubit →
           String.get (S (Z.to_nat i)) s = Some (bit_char (Basis.get_bit i b)).
Proof.
  intros Hn. unfold Basis.str. rewrite bool_decide_eq_true_2 by lia.
  eexists; split; [done|].
  pose proof (str_loop_chars b (Z.to_nat nqubit)) as Hloop.
  rewrite Z2Nat.id in Hloop by lia. simpl in Hloop.
  set (s := foldl _ _ (seqZ 0 nqubit)) in *.
  destruct Hloop as (Hlen & H0 & Hi).
  split; [|split; [|split]].
  - rewrite string_length_append, Hlen. simpl. lia.
  - rewrite <-String.append_correct1 by lia. done.
  - pose proof (String.append_correct2 s ">" 0) as Hget.
    rewrite Hlen in Hget. simpl in Hget. by rewrite <-Hget.
  - intros i Hi'. rewrite <-String.append_correct1 by lia.
    rewrite Hi by lia. by rewrite Z2Nat.id by lia.
Qed.

(** ** The claims at concrete inputs *)

Lemma qc_example_wf : wf qc_example.
Proof. unfold wf, qc_example; simpl. repeat split; try done; vm_compute; congruence. Defined.

Lemma apply_1qubit_gate_spec_witness :
  wf qc_example ∧ scratch_clean qc_example ∧
  ∃ qc', apply_1qubit_gate (M_gate 1) qc_example = Some qc'
         ∧ vec_at (new_coeff_ qc') 2 = Some (4 * 1 + 5 * 100)
         ∧ contributions_of (Basis.mk 2) (events_1qubit (M_gate 1) (basis_ qc_example))
           = [(Basis.mk 0, Basis.mk 2, 3); (Basis.mk 2, Basis.mk 2, 5)].
Proof.
  split; [apply qc_example_wf|]. split; [done|].
  destruct (apply_1qubit_gate_spec (M_gate 1) qc_example)
    as (qc' & Hrun & _ & Hent & _ & Hcontrib).
  - intros x. apply Z.add_0_l.
  - apply qc_example_wf.
  - done.
  - simpl. lia.
  - exists qc'. split; [done|]. split.
    + destruct (Hent 2) as (c0 & c1 & Hc0 & Hc1 & Hnew); [simpl; lia|].
      vm_compute in Hc0, Hc1. injection Hc0 as <-. injection Hc1 as <-.
      exact Hnew.
    + apply (Hcontrib 2). simpl. lia.
Defined.

Lemma QuantumComputer_new_spec_witness :
  ∃ qc : QuantumComputer Z, QuantumComputer_new 2 = Some qc
    ∧ nbasis_ qc = 4 ∧ vec_at (coeff_ qc) 0 = Some 1 ∧ vec_at (coeff_ qc) 3 = Some 0
    ∧ vec_at (basis_ qc) 3 = Some (Basis.mk 3).
Proof.
  destruct (QuantumComputer_new_spec (C:=Z) 2)
    as (qc & Hnew & _ & Hnb & _ & _ & _ & H0 & Hrest & Hbasis).
  - unfold basis_bits. lia.
  - exists qc. split; [done|]. split; [done|]. split; [done|]. split.
    + apply Hrest. simpl. lia.
    + apply Hbasis. simpl. lia.
Defined.

Lemma set_state_spec_witness :
  ∃ qc', set_state [(Basis.mk 1, 5); (Basis.mk 2, 7); (Basis.mk 1, 9)] qc_example = Some qc'
         ∧ vec_at (coeff_ qc') 0 = Some 0
         ∧ vec_at (coeff_ qc') 1 = Some 9
         ∧ vec_at (coeff_ qc') 2 = Some 7.
Proof.
  destruct (set_state_spec [(Basis.mk 1, 5); (Basis.mk 2, 7); (Basis.mk 1, 9)] qc_example)
    as (qc' & Hrun & _ & _ & _ & _ & _ & Hent).
  - repeat constructor; simpl; lia.
  - exists qc'. split; [done|].
    split; [|split]; (rewrite Hent by (simpl; lia)); by vm_compute.
Defined.

Lemma apply_2qubit_gate_spec_witness :
  ∃ qc', apply_2qubit_gate (CX_gate 1 0) qc_example = Some qc'
         ∧ accumulated (events_2qubit (CX_gate 1 0) (basis_ qc_example)) qc_example qc'
         ∧ vec_at (new_coeff_ qc') 1 = Some (5 * 1 + 6 * 10 + 7 * 100 + 8 * 1000).
Proof.
  destruct (apply_2qubit_gate_spec (CX_gate 1 0) qc_example) as (qc' & Hrun & Hacc & Hent).
  - apply qc_example_wf.
  - simpl. lia.
  - simpl. lia.
  - exists qc'. split; [done|]. split; [done|].
    rewrite (Hent ltac:(done) 1 0 eq_refl). by vm_compute.
Defined.

Lemma str_spec_witness :
  wf qc_example ∧
  str (10 : @threshold Z Z_printing) qc_example
  = Some (rendered_term qc_example <$>
            filter (λ i, abs_ge (amp (coeff_ qc_example) i) (10 : @threshold Z Z_printing) = true)
                   (seqZ 0 (nbasis_ qc_example))).
Proof. split; [apply qc_example_wf|]. apply str_spec. apply qc_example_wf. Defined.

Lemma apply_gate_other_arity_witness :
  wf qc_example ∧ scratch_clean qc_example ∧ QuantumGate.nqubits (CX_gate 1 0) ≠ 1 ∧
  apply_gate (CX_gate 1 0) qc_example
  = Some (mkQC 2 4 (basis_ qc_example) [0; 0; 0; 0] [0; 0; 0; 0]).
Proof.
  split; [apply qc_example_wf|]. split; [done|]. split; [done|].
  rewrite (apply_gate_other_arity (CX_gate 1 0) qc_example);
    [by vm_compute|apply qc_example_wf|done|done].
Defined.

Lemma insert_spec_witness :
  ∃ r, Basis.insert 1 (Basis.mk 3) = Some r
       ∧ Basis.get_bit 0 r = true ∧ Basis.get_bit 1 r = true ∧ Basis.get_bit 2 r = true
       ∧ 0 ≤ Basis.state_ r < 8.
Proof.
  destruct (insert_spec 3 1 (Basis.mk 3)) as (r & Hr & Hlow & Hslot & Hhigh & Hrange).
  - unfold basis_bits. lia.
  - simpl. lia.
  - unfold int_bits. lia.
  - exists r. split; [done|]. split; [|split; [|split]].
    + rewrite Hlow by lia. done.
    + rewrite Hslot. done.
    + rewrite Hhigh by lia. done.
    + exact Hrange.
Defined.

Lemma insert_mutates_receiver_witness :
  ∃ b', Basis.insert 0 (Basis.mk 1) = Some b' ∧ Basis.state_ b' ≠ Basis.state_ (Basis.mk 1).
Proof.
  destruct (insert_mutates_receiver 0 (Basis.mk 1)) as (_ & b' & Hins & Hiff).
  - unfold int_bits. lia.
  - unfold basis_bits. simpl. lia.
  - exists b'. split; [done|]. intros Heq.
    pose proof (proj1 Hiff Heq 0 ltac:(lia)) as Hbit. done.
Defined.

Lemma str_lsb_first_witness :
  ∃ s, Basis.str 3 (Basis.mk 1) = Some s
       ∧ String.get 1 s = Some "1"%char ∧ String.get 3 s = Some "0"%char.
Proof.
  destruct (str_lsb_first 3 (Basis.mk 1)) as (s & Hs & _ & _ & _ & Hbits).
  - unfold INT_MAX, int_bits. simpl. lia.
  - exists s. split; [done|]. split.
    + apply (Hbits 0). lia.
    + apply (Hbits 2). lia.
Defined.

(** ** Where the specification's wording fails *)

(** C3.  Inserting at position 1 into the value 1 gives 3: the bit at the
    opened position is a copy of bit 0, not a cleared bit. *)
Lemma insert_clears_slot_counterexample :
  0 ≤ Basis.state_ (Basis.mk 1) < 2 ^ (2 - 1) ∧ ¬ insert_clears_slot 1 (Basis.mk 1).
Proof.
  split; [simpl; lia|]. intros (r & Hr & _ & Hclear & _).
  vm_compute in Hr. injection Hr as <-. done.
Qed.

(** C4.  After [insert(0)] a receiver that held 1 holds 2. *)
Lemma insert_leaves_receiver_counterexample :
  ¬ insert_leaves_receiver 0 (Basis.mk 1).
Proof.
  intros Hpure. specialize (Hpure (Basis.mk 2)).
  assert (Basis.insert 0 (Basis.mk 1) = Some (Basis.mk 2)) as Hins by (by vm_compute).
  specialize (Hpure Hins). done.
Qed.

(** C8.  [Basis(1).str(2)] is "|10>": the character after the bar is
    bit 0, while bit [nqubit - 1] is clear. *)
Lemma str_msb_first_counterexample : ¬ str_msb_first 2 (Basis.mk 1).
Proof.
  intros (s & Hs & Hfirst & _).
  vm_compute in Hs. injection Hs as <-. done.
Qed.

(** C2.  On a 33-qubit register and target qubit 32 the dense scan runs to
    completion while the insertion variant has no defined result: the mask
    [(1 << 32) - 1] of [Basis::insert] is computed in [int]. *)
Theorem insertion_undefined_at_qubit_32 :
  ∃ qc : QuantumComputer Z, QuantumComputer_new 33 = Some qc
    ∧ is_Some (apply_1qubit_gate (X_gate 32) qc)
    ∧ apply_1qubit_gate_insertion (X_gate 32) qc = None
    ∧ Basis.insert 32 (Basis.mk 1) = None.
Proof.
  destruct (QuantumComputer_new_wf (C:=Z) 33) as (qc & Hnew & En & Hwf & _).
  { unfold basis_bits. lia. }
  exists qc. split; [exact Hnew|]. clear Hnew. split; [|split].
  - destruct (apply_1qubit_gate_accumulated (X_gate 32) qc Hwf) as (qc' & Hrun & _).
    { rewrite En. unfold X_gate. cbn [QuantumGate.target]. lia. }
    rewrite Hrun. exists qc'. reflexivity.
  - apply apply_1qubit_gate_insertion_undefined.
    + rewrite En. unfold basis_bits. lia.
    + unfold int_bits, X_gate. cbn [QuantumGate.target]. lia.
  - apply insert_undefined. unfold int_bits. lia.
Qed.

(** * Further properties of the code *)

(** ** What a returning call leaves in place *)

Lemma for_each_preserves {A S : Type} (R : S → S → Prop) (l : list A)
    (body : A → S → option S) s s' :
  (∀ s, R s s) → (∀ s1 s2 s3, R s1 s2 → R s2 s3 → R s1 s3) →
  (∀ x s1 s2, x ∈ l → body x s1 = Some s2 → R s1 s2) →
  for_each l body s = Some s' → R s s'.
Proof.
  intros Hrefl Htrans. revert s. induction l as [|x l IH]; intros s Hbody Hrun.
  - injection Hrun as <-. apply Hrefl.
  - cbn [for_each] in Hrun. destruct (body x s) as [s1|] eqn:Hx; [|done].
    cbn [mbind option_bind] in Hrun.
    apply (Htrans _ s1); [by apply (Hbody x); [left|]|].
    apply IH; [|done]. intros y ?? Hy. apply Hbody. by right.
Qed.

Lemma vec_set_inv {A} (v v' : list A) i x :
  vec_set v i x = Some v' →
  0 ≤ i < Z.of_nat (length v) ∧ v' = <[Z.to_nat i := x]> v.
Proof.
  unfold vec_set. case_bool_decide; [|done]. by intros [= <-].
Qed.

Lemma vec_at_None {A} (v : list A) i :
  Z.of_nat (length v) ≤ i → vec_at v i = None.
Proof.
  intros Hi. unfold vec_at. case_bool_decide; [|done].
  apply lookup_ge_None. lia.
Qed.

Section Returning.
Context {C : Type} `{Amplitude C}.
Implicit Types (qc : QuantumComputer C) (qg : QuantumGate.t C).

Lemma accumulate_same bI bJ op qc qc' :
  accumulate bI bJ op qc = Some qc' → same_but_scratch qc qc'.
Proof.
  unfold accumulate. intros Hrun.
  destruct (vec_at (coeff_ qc) (Basis.add bJ)) as [cJ|]; [|done].
  destruct (vec_at (new_coeff_ qc) (Basis.add bI)) as [nI|]; [|done].
  cbn [mbind option_bind] in Hrun.
  destruct (vec_set _ _ _) as [v|] eqn:Hset; [|done].
  injection Hrun as <-. apply vec_set_inv in Hset as [_ ->].
  repeat split. simpl. apply length_insert.
Qed.

Lemma apply_1qubit_gate_same qg qc qc' :
  apply_1qubit_gate qg qc = Some qc' → same_but_scratch qc qc'.
Proof.
  unfold apply_1qubit_gate.
  apply for_each_preserves;
    [apply same_but_scratch_refl|apply same_but_scratch_trans|].
  intros i qc1 qc2 _.
  apply for_each_preserves;
    [apply same_but_scratch_refl|apply same_but_scratch_trans|].
  intros j qc3 qc4 _.
  apply for_each_preserves;
    [apply same_but_scratch_refl|apply same_but_scratch_trans|].
  intros bJ qc5 qc6 _. case (bool_eq_size_t _ _).
  - apply accumulate_same.
  - intros [= <-]. apply same_but_scratch_refl.
Qed.

(** Whatever the gate, a call of [apply_gate] that returns keeps the class
    invariant and hands back a clean scratch buffer. *)
Lemma apply_gate_returns_wf qg qc qc' :
  wf qc → apply_gate qg qc = Some qc' →
  wf qc' ∧ scratch_clean qc' ∧ nqubit_ qc' = nqubit_ qc.
Proof.
  intros Hwf. unfold apply_gate.
  destruct (if bool_decide _ then _ else _) as [qc1|] eqn:Hrun; [|done].
  cbn [mbind option_bind]. intros [= <-].
  assert (same_but_scratch qc qc1) as Hs.
  { case_bool_decide; [by apply (apply_1qubit_gate_same qg)|].
    injection Hrun as <-. apply same_but_scratch_refl. }
  pose proof (wf_same_but_scratch _ _ Hwf Hs) as (?&?&?&?&Hl).
  unfold wf, scratch_clean, vec_fill; simpl.
  rewrite length_replicate, Hl. destruct Hs as (?&_). done.
Qed.

Lemma QuantumComputer_new_Some_inv N qc :
  QuantumComputer_new N = Some qc → 0 ≤ N < basis_bits.
Proof.
  unfold QuantumComputer_new, pow2_size_t. intros Hnew.
  case_bool_decide as Hneg.
  - exfalso. cbn [mbind option_bind] in Hnew.
    rewrite seqZ_nil in Hnew by done. cbn in Hnew. done.
  - case_bool_decide; [lia|done].
Qed.

(** [set_state] returns exactly when every pair names an index of
    [coeff_]; the loop stops at the first pair that does not. *)
Lemma set_state_loop_Some (state : list (Basis.t * C)) qc qc' :
  for_each state
    (λ basis_c qc, v ← vec_set (coeff_ qc) (Basis.add basis_c.1) basis_c.2;
                   Some (set_coeff v qc)) qc = Some qc' →
  Forall (λ basis_c, 0 ≤ Basis.add basis_c.1 < Z.of_nat (length (coeff_ qc))) state.
Proof.
  revert qc. induction state as [|p state IH]; intros qc Hrun; [constructor|].
  cbn [for_each] in Hrun.
  destruct (vec_set _ _ _) as [v|] eqn:Hset; [|done].
  cbn [mbind option_bind] in Hrun.
  apply vec_set_inv in Hset as [Hp ->]. constructor; [done|].
  apply IH in Hrun. simpl in Hrun. by rewrite length_insert in Hrun.
Qed.

Lemma set_state_Some_inv (state : list (Basis.t * C)) qc qc' :
  set_state state qc = Some qc' →
  Forall (λ basis_c, 0 ≤ Basis.add basis_c.1 < Z.of_nat (length (coeff_ qc))) state
  ∧ nqubit_ qc' = nqubit_ qc ∧ nbasis_ qc' = nbasis_ qc
  ∧ basis_ qc' = basis_ qc ∧ new_coeff_ qc' = new_coeff_ qc
  ∧ length (coeff_ qc') = length (coeff_ qc).
Proof.
  unfold set_state. intros Hrun.
  pose proof (set_state_loop_Some _ _ _ Hrun) as Hrange.
  simpl in Hrange. unfold vec_fill in Hrange. rewrite length_replicate in Hrange.
  split; [done|].
  destruct (set_state_loop state (set_coeff (vec_fill (coeff_ qc) C0) qc))
    as (v & Hrun' & Hlen & _).
  { simpl. unfold vec_fill. by rewrite length_replicate. }
  rewrite Hrun' in Hrun. injection Hrun as <-. simpl in *.
  unfold vec_fill in Hlen. rewrite length_replicate in Hlen. done.
Qed.

End Returning.

(** ** Qubit indices out of range *)

Lemma clear_bit_range n pos b :
  0 ≤ pos → 0 ≤ n → 0 ≤ Basis.state_ b < 2 ^ n →
  0 ≤ Basis.state_ (Basis.set_bit pos false b) < 2 ^ n.
Proof.
  intros Hpos Hn [Hb0 Hb]. split; [by apply set_bit_nonneg|].
  apply below_pow2_bits; [done|by apply set_bit_nonneg|].
  intros k Hk. rewrite testbit_set_bit by done.
  case_bool_decide; [done|].
  by apply (proj1 (below_pow2_bits n (Basis.state_ b) Hn Hb0) Hb).
Qed.

Lemma set_bit_true_zero pos :
  0 ≤ pos → Basis.state_ (Basis.set_bit pos true (Basis.mk 0)) = 2 ^ pos.
Proof.
  intros Hpos. simpl. unfold Z.setbit. by rewrite Z.lor_0_l, Z.shiftl_1_l.
Qed.

Section OutOfRange.
Context {C : Type} `{Amplitude C}.
Implicit Types (qc : QuantumComputer C) (qg : QuantumGate.t C).

(** A pass whose every selected basis state has its destination in range
    runs to completion. *)
Lemma pass_defined sel dst (op : C) qc :
  wf qc →
  (∀ J, 0 ≤ J < 2 ^ nqubit_ qc → sel (Basis.mk J) = true →
        0 ≤ Basis.state_ (dst (Basis.mk J)) < 2 ^ nqubit_ qc) →
  ∃ qc', for_each (basis_ qc) (λ basis_J qc,
                     if sel basis_J then accumulate (dst basis_J) basis_J op qc
                     else Some qc) qc = Some qc'
         ∧ same_but_scratch qc qc'.
Proof.
  intros Hwf Hdst.
  destruct (wf_lengths _ Hwf) as [Hlc Hln].
  destruct (for_each_scan sel dst op (basis_ qc) qc) as (qc' & Hrun & Hs & _).
  - intros bJ Hin Hsel. rewrite Hlc, Hln.
    destruct Hwf as (?&Enb&Ebasis&_). rewrite Ebasis, Enb in Hin.
    apply elem_of_basis in Hin. destruct bJ as [J]. split; [|done].
    by apply Hdst.
  - by exists qc'.
Qed.

(** A pass that selects [Basis(0)] and sends it past the end of
    [new_coeff_] has no defined result. *)
Lemma pass_undefined sel dst (op : C) qc :
  wf qc → sel (Basis.mk 0) = true →
  2 ^ nqubit_ qc ≤ Basis.state_ (dst (Basis.mk 0)) →
  for_each (basis_ qc) (λ basis_J qc,
              if sel basis_J then accumulate (dst basis_J) basis_J op qc
              else Some qc) qc = None.
Proof.
  intros Hwf Hsel Hdst.
  destruct (wf_lengths _ Hwf) as [Hlc Hln].
  destruct Hwf as (Hn & Enb & -> & _). rewrite Enb.
  rewrite seqZ_cons by (apply Z.pow_pos_nonneg; lia).
  rewrite fmap_cons. cbn [for_each]. rewrite Hsel. unfold accumulate.
  destruct (vec_at_is_Some (coeff_ qc) (Basis.add (Basis.mk 0))) as [c ->].
  { simpl. assert (0 < 2 ^ nqubit_ qc) by (apply Z.pow_pos_nonneg; lia). lia. }
  cbn [mbind option_bind]. rewrite vec_at_None; [done|].
  rewrite Hln. done.
Qed.

(** The two passes of the dense scan for one matrix row. *)
Lemma one_qubit_row_defined qg i qc :
  wf qc →
  (∀ J, 0 ≤ J < 2 ^ nqubit_ qc →
        0 ≤ Basis.state_ (Basis.set_bit (QuantumGate.target qg) (to_bool i) (Basis.mk J))
          < 2 ^ nqubit_ qc) →
  ∃ qc', for_each (seqZ 0 2) (λ j qc,
           let op_i_j := QuantumGate.gate qg i j in
           for_each (basis_ qc) (λ basis_J qc,
             if bool_eq_size_t (Basis.get_bit (QuantumGate.target qg) basis_J) j then
               let basis_I := basis_J in
               let basis_I := Basis.set_bit (QuantumGate.target qg) (to_bool i) basis_I in
               accumulate basis_I basis_J op_i_j qc
             else Some qc) qc) qc = Some qc'
         ∧ same_but_scratch qc qc'.
Proof.
  intros Hwf Hdst. change (seqZ 0 2) with [0; 1]. cbn [for_each].
  destruct (pass_defined
              (λ bJ, bool_eq_size_t (Basis.get_bit (QuantumGate.target qg) bJ) 0)
              (Basis.set_bit (QuantumGate.target qg) (to_bool i))
              (QuantumGate.gate qg i 0) qc Hwf) as (qc1 & Hrun1 & Hs1).
  { intros J HJ _. by apply Hdst. }
  cbv zeta. rewrite Hrun1. cbn [mbind option_bind].
  pose proof (wf_same_but_scratch _ _ Hwf Hs1) as Hwf1.
  destruct (pass_defined
              (λ bJ, bool_eq_size_t (Basis.get_bit (QuantumGate.target qg) bJ) 1)
              (Basis.set_bit (QuantumGate.target qg) (to_bool i))
              (QuantumGate.gate qg i 1) qc1 Hwf1) as (qc2 & Hrun2 & Hs2).
  { intros J HJ _. destruct Hs1 as (En & _). rewrite En in HJ |- *. by apply Hdst. }
  rewrite Hrun2. cbn [mbind option_bind].
  exists qc2. split; [done|]. by eapply same_but_scratch_trans.
Qed.

(** With a target at or past the qubit count, the dense scan reaches, in
    its pass for the matrix entry (1, 0), the subscript [2^target] of
    [new_coeff_], which has [2^N] entries. *)
Lemma apply_1qubit_gate_out_of_range qg qc :
  wf qc → nqubit_ qc ≤ QuantumGate.target qg →
  apply_1qubit_gate qg qc = None.
Proof.
  intros Hwf Ht. pose proof Hwf as (Hn & _).
  unfold apply_1qubit_gate. cbv zeta.
  change (seqZ 0 2) with [0; 1] at 1. cbn [for_each].
  destruct (one_qubit_row_defined qg 0 qc Hwf) as (qc1 & Hrun1 & Hs1).
  { intros J HJ. rewrite to_bool_0. apply clear_bit_range; [lia..|done]. }
  cbv zeta in Hrun1. rewrite Hrun1. cbn [mbind option_bind].
  pose proof (wf_same_but_scratch _ _ Hwf Hs1) as Hwf1.
  change (seqZ 0 2) with [0; 1]. cbn [for_each].
  rewrite pass_undefined; [done|done| |].
  - unfold bool_eq_size_t, Basis.get_bit. simpl. by rewrite Z.bits_0.
  - rewrite to_bool_1, set_bit_true_zero by lia.
    destruct Hs1 as (En & _). rewrite En. apply Z.pow_le_mono_r; lia.
Qed.

Lemma apply_gate_unfit qg qc :
  wf qc → ¬ gate_fits (nqubit_ qc) qg → apply_gate qg qc = None.
Proof.
  intros Hwf Hfits. unfold gate_fits in Hfits.
  destruct (decide (QuantumGate.nqubits qg = 1)) as [Harity|]; [|by destruct Hfits].
  unfold apply_gate. rewrite bool_decide_eq_true_2 by done.
  rewrite apply_1qubit_gate_out_of_range; [done|done|]. lia.
Qed.

Lemma apply_gate_fit qg qc :
  wf qc → 0 ≤ QuantumGate.target qg → gate_fits (nqubit_ qc) qg →
  ∃ qc', apply_gate qg qc = Some qc' ∧ wf qc' ∧ scratch_clean qc'
         ∧ nqubit_ qc' = nqubit_ qc.
Proof.
  intros Hwf Ht Hfits. apply apply_gate_wf; [done|].
  intros Harity. specialize (Hfits Harity). lia.
Qed.

(** X2.  On a well-formed register [apply_gate] returns exactly for the
    gates that fit it: every gate not declared a one-qubit gate, and the
    one-qubit gates whose target is below the qubit count.  For a
    one-qubit gate with a larger target the scan subscripts [new_coeff_]
    past its end. *)
Theorem apply_gate_is_Some qg qc :
  wf qc → 0 ≤ QuantumGate.target qg →
  is_Some (apply_gate qg qc) ↔ gate_fits (nqubit_ qc) qg.
Proof.
  intros Hwf Ht. split.
  - intros [qc' Hrun]. destruct (decide (gate_fits (nqubit_ qc) qg)) as [|Hno]; [done|].
    by rewrite apply_gate_unfit in Hrun.
  - intros Hfits. by destruct (apply_gate_fit qg qc Hwf Ht Hfits) as (qc' & -> & _).
Qed.

End OutOfRange.

(** ** Circuits and reachable registers *)

Section Circuits.
Context {C : Type} `{Amplitude C}.
Implicit Types (qc : QuantumComputer C) (qg : QuantumGate.t C).

Lemma apply_circuit_returns_wf (gs : list (QuantumGate.t C)) qc qc' :
  wf qc → scratch_clean qc → for_each gs (λ gate qc, apply_gate gate qc) qc = Some qc' →
  wf qc' ∧ scratch_clean qc' ∧ nqubit_ qc' = nqubit_ qc.
Proof.
  intros Hwf Hclean Hrun.
  apply (for_each_preserves
           (λ q q', wf q ∧ scratch_clean q →
                    wf q' ∧ scratch_clean q' ∧ nqubit_ q' = nqubit_ q)
           gs (λ gate qc, apply_gate gate qc) qc qc'); [| | |done|done].
  - by intros q [??].
  - intros q1 q2 q3 H12 H23 H1. destruct (H12 H1) as (?&?&E12).
    destruct H23 as (?&?&E23); [done|]. rewrite E23, E12. done.
  - intros qg q1 q2 _ Hg [Hwf1 _]. by apply (apply_gate_returns_wf qg).
Qed.

(** X3.  Every register a program can hold, obtained from the constructor
    by [set_state], [apply_gate] and [apply_circuit] calls that return,
    satisfies the class invariant (three arrays of [2^N] entries,
    [basis_[i] = Basis(i)], [N] below 64) and has an all-zero scratch
    buffer. *)
Theorem reachable_invariant qc : reachable qc → wf qc ∧ scratch_clean qc.
Proof.
  induction 1 as [N qc Hnew|state qc qc' _ [Hwf Hclean] Hset
                 |qg qc qc' _ [Hwf Hclean] Hgate
                 |qc_ qc qc' _ [Hwf Hclean] Hcirc].
  - pose proof (QuantumComputer_new_Some_inv _ _ Hnew) as HN.
    destruct (QuantumComputer_new_wf N HN) as (qc0 & Hnew0 & _ & Hwf & Hclean & _).
    assert (qc0 = qc) as <- by congruence. done.
  - apply set_state_Some_inv in Hset as (_ & En & Enb & Eb & Enew & El).
    destruct Hwf as (?&?&?&?&?). unfold wf, scratch_clean in *.
    rewrite En, Enb, Eb, Enew, El. done.
  - by destruct (apply_gate_returns_wf _ _ _ Hwf Hgate) as (?&?&_).
  - by destruct (apply_circuit_returns_wf _ _ _ Hwf Hclean Hcirc) as (?&?&_).
Qed.

(** X4.  On a well-formed register [apply_circuit] returns exactly when
    every gate of the circuit fits the register: one one-qubit gate with a
    target at or past the qubit count, anywhere in the circuit, leaves the
    whole call without a defined result. *)
Theorem apply_circuit_is_Some (qc_ : QuantumCircuit C) qc :
  wf qc →
  Forall (λ qg, 0 ≤ QuantumGate.target qg) (gates qc_) →
  is_Some (apply_circuit qc_ qc) ↔ Forall (gate_fits (nqubit_ qc)) (gates qc_).
Proof.
  unfold apply_circuit. destruct qc_ as [gs]; simpl.
  intros Hwf Hpos. revert qc Hwf.
  induction gs as [|qg gs IH]; intros qc Hwf.
  - split; [constructor|by eexists].
  - apply Forall_cons in Hpos as [Ht Hpos]. cbn [for_each].
    destruct (decide (gate_fits (nqubit_ qc) qg)) as [Hfits|Hno].
    + destruct (apply_gate_fit qg qc Hwf Ht Hfits) as (qc1 & -> & Hwf1 & Hclean1 & En).
      cbn [mbind option_bind]. rewrite (IH Hpos qc1 Hwf1), En.
      split; [by constructor|]. by intros [_ ?]%Forall_cons.
    + rewrite apply_gate_unfit by done. cbn [mbind option_bind]. split.
      * by intros [? ?].
      * by intros [? _]%Forall_cons.
Qed.

(** X6.  Applying the concatenation of two gate sequences is applying the
    first and then, to the register it leaves, the second; if the first
    has no defined result neither has the whole. *)
Theorem apply_circuit_app (gs1 gs2 : list (QuantumGate.t C)) qc :
  apply_circuit (mkCircuit (gs1 ++ gs2)) qc
  = apply_circuit (mkCircuit gs1) qc ≫= apply_circuit (mkCircuit gs2).
Proof. unfold apply_circuit; simpl. apply for_each_app. Qed.

End Circuits.

(** ** One-qubit gates through [apply_gate] *)

Lemma set_bit_same pos v (b : Basis.t) :
  0 ≤ pos → Basis.get_bit pos b = v → Basis.set_bit pos v b = b.
Proof.
  intros Hpos Hv. apply basis_eq. intros k Hk. rewrite testbit_set_bit by done.
  case_bool_decide; [by subst|done].
Qed.

Lemma get_bit_set_bit pos v (b : Basis.t) :
  0 ≤ pos → Basis.get_bit pos (Basis.set_bit pos v b) = v.
Proof.
  intros Hpos. unfold Basis.get_bit. rewrite testbit_set_bit by done.
  by rewrite bool_decide_eq_true_2.
Qed.

Lemma flip_bit_flip_bit pos (b : Basis.t) :
  0 ≤ pos → flip_bit pos (flip_bit pos b) = b.
Proof.
  intros Hpos. unfold flip_bit at 1. unfold flip_bit at 1.
  rewrite get_bit_set_bit by done. unfold flip_bit.
  apply basis_eq. intros k Hk. rewrite !testbit_set_bit by done.
  case_bool_decide; [subst; apply negb_involutive|done].
Qed.

Lemma vec_ext {A} (v w : list A) :
  length v = length w →
  (∀ I, 0 ≤ I < Z.of_nat (length v) → vec_at v I = vec_at w I) → v = w.
Proof.
  intros Hlen Hvw. apply list_eq. intros i.
  destruct (decide (i < length v)%nat) as [Hi|Hi].
  - specialize (Hvw (Z.of_nat i) ltac:(lia)). unfold vec_at in Hvw.
    rewrite bool_decide_eq_true_2, Nat2Z.id in Hvw by lia. done.
  - rewrite !(proj2 (lookup_ge_None _ _)) by lia. done.
Qed.

Section Dispatch.
Context {C : Type} `{Amplitude C}.
Implicit Types (qc : QuantumComputer C) (qg : QuantumGate.t C).

Lemma amp_vec_at (v : list C) I :
  0 ≤ I < Z.of_nat (length v) → vec_at v I = Some (amp v I).
Proof.
  intros HI. unfold amp. by destruct (vec_at_is_Some v I HI) as [x ->].
Qed.

Lemma amp_replicate n I : amp (replicate n C0) I = C0.
Proof.
  unfold amp, vec_at. case_bool_decide; [|done].
  destruct (replicate n C0 !! Z.to_nat I) as [x|] eqn:Hx; [|done].
  by apply lookup_replicate in Hx as [-> _].
Qed.

Lemma QuantumComputer_eq qc qc' :
  nqubit_ qc' = nqubit_ qc → nbasis_ qc' = nbasis_ qc → basis_ qc' = basis_ qc →
  coeff_ qc' = coeff_ qc → new_coeff_ qc' = new_coeff_ qc → qc' = qc.
Proof. destruct qc, qc'; simpl. by intros -> -> -> -> ->. Qed.

(** The dispatch of a one-qubit gate from a clean scratch buffer: the
    scan, then the copy of the scratch buffer over [coeff_] and its
    zeroing. *)
Lemma apply_gate_1qubit_run qg qc :
  wf qc → scratch_clean qc → QuantumGate.nqubits qg = 1 →
  0 ≤ QuantumGate.target qg < nqubit_ qc →
  ∃ qc', apply_gate qg qc = Some qc'
    ∧ nqubit_ qc' = nqubit_ qc ∧ nbasis_ qc' = nbasis_ qc ∧ basis_ qc' = basis_ qc
    ∧ new_coeff_ qc' = new_coeff_ qc ∧ length (coeff_ qc') = length (coeff_ qc)
    ∧ ∀ I, 0 ≤ I < 2 ^ nqubit_ qc →
        let t := QuantumGate.target qg in
        let b := Z.b2z (Z.testbit I t) in
        vec_at (coeff_ qc') I
        = Some (Cadd (Cadd C0
                  (Cmul (QuantumGate.gate qg b 0)
                        (amp (coeff_ qc) (Basis.add (Basis.set_bit t false (Basis.mk I))))))
                  (Cmul (QuantumGate.gate qg b 1)
                        (amp (coeff_ qc) (Basis.add (Basis.set_bit t true (Basis.mk I)))))).
Proof.
  intros Hwf Hclean Harity Ht.
  destruct (apply_1qubit_gate_entries qg qc Hwf Ht) as (qc1 & Hrun & Hs & Hent).
  unfold apply_gate. rewrite bool_decide_eq_true_2, Hrun by done.
  cbn [mbind option_bind]. eexists; split; [done|].
  cbn [nqubit_ nbasis_ basis_ coeff_ new_coeff_ set_coeff set_new_coeff].
  destruct (wf_lengths _ Hwf) as [Hlc Hln].
  pose proof Hwf as (Hn & Enb & _ & Hlc' & Hln').
  destruct Hs as (En & Enb1 & Eb & Ec & El).
  split; [done|]. split; [done|]. split; [done|]. split; [|split].
  - unfold vec_fill. by rewrite El, Hln', Hclean.
  - by rewrite El, Hln', Hlc'.
  - intros I HI.
    assert (vec_at (new_coeff_ qc) I = Some C0) as Hzero.
    { rewrite Hclean. apply vec_at_replicate. rewrite Enb.
      assert (0 < 2 ^ nqubit_ qc) by (apply Z.pow_pos_nonneg; lia). lia. }
    pose proof (Hent I C0 Hzero) as Hx. cbv zeta in Hx.
    destruct Hx as (c0 & c1 & Hc0 & Hc1 & Hnew).
    rewrite Hnew. unfold coeff in Hc0, Hc1. unfold amp.
    by rewrite Hc0, Hc1.
Qed.

End Dispatch.

Section OneQubitGates.
Context {C : Type} `{Amplitude C}.
Implicit Types (qc : QuantumComputer C) (qg : QuantumGate.t C).

(** X1.  A one-qubit gate with target [t] below the qubit count, applied
    through [apply_gate] to a well-formed register with a clean scratch
    buffer: the call returns, the new amplitude at every index [I] is
    [op[b][0] * old[J0] + op[b][1] * old[J1]] ([b] bit [t] of [I]; [J0],
    [J1] the index with bit [t] cleared and set), read from the amplitudes
    before the call, and the register is again well-formed with a clean
    scratch buffer. *)
Theorem apply_gate_1qubit_spec qg qc :
  (∀ x, Cadd C0 x = x) →
  wf qc → scratch_clean qc → QuantumGate.nqubits qg = 1 →
  0 ≤ QuantumGate.target qg < nqubit_ qc →
  ∃ qc', apply_gate qg qc = Some qc'
    ∧ wf qc' ∧ scratch_clean qc' ∧ nqubit_ qc' = nqubit_ qc
    ∧ ∀ I, 0 ≤ I < 2 ^ nqubit_ qc →
        let t := QuantumGate.target qg in
        let b := Z.b2z (Z.testbit I t) in
        ∃ c0 c1,
          coeff (Basis.set_bit t false (Basis.mk I)) qc = Some c0 ∧
          coeff (Basis.set_bit t true (Basis.mk I)) qc = Some c1 ∧
          coeff (Basis.mk I) qc'
          = Some (Cadd (Cmul (QuantumGate.gate qg b 0) c0)
                       (Cmul (QuantumGate.gate qg b 1) c1)).
Proof.
  intros Hid Hwf Hclean Harity Ht.
  destruct (apply_gate_1qubit_run qg qc Hwf Hclean Harity Ht)
    as (qc' & Hrun & En & Enb & Eb & Enew & El & Hent).
  destruct (apply_gate_returns_wf qg qc qc' Hwf Hrun) as (Hwf' & Hclean' & _).
  exists qc'. repeat (split; [done|]). intros I HI t b.
  destruct (wf_lengths _ Hwf) as [Hlc _].
  eexists _, _. split; [|split].
  - apply amp_coeff. rewrite Hlc. apply set_bit_range; [lia|done].
  - apply amp_coeff. rewrite Hlc. apply set_bit_range; [lia|done].
  - unfold coeff. cbn [Basis.add Basis.state_]. rewrite (Hent I HI). by rewrite Hid.
Qed.

(** Once all amplitudes are zero, a gate that fits leaves them zero. *)
Lemma apply_gate_zero qg qc :
  (∀ x, Cadd C0 x = x) → (∀ x, Cmul x C0 = C0) →
  wf qc → scratch_clean qc → coeff_ qc = replicate (Z.to_nat (nbasis_ qc)) C0 →
  0 ≤ QuantumGate.target qg → gate_fits (nqubit_ qc) qg →
  ∃ qc', apply_gate qg qc = Some qc' ∧ wf qc' ∧ scratch_clean qc'
    ∧ nqubit_ qc' = nqubit_ qc
    ∧ coeff_ qc' = replicate (Z.to_nat (nbasis_ qc')) C0.
Proof.
  intros Hadd Hmul Hwf Hclean Hzero Ht Hfits.
  destruct (decide (QuantumGate.nqubits qg = 1)) as [Harity|Harity].
  - destruct (apply_gate_1qubit_run qg qc Hwf Hclean Harity)
      as (qc' & Hrun & En & Enb & Eb & Enew & El & Hent).
    { split; [done|]. by apply Hfits. }
    destruct (apply_gate_returns_wf qg qc qc' Hwf Hrun) as (Hwf' & Hclean' & _).
    exists qc'. repeat (split; [done|]).
    destruct (wf_lengths _ Hwf) as [Hlc _].
    apply vec_ext.
    + rewrite length_replicate, El, Enb. by destruct Hwf as (_&_&_&->&_).
    + intros I HI. rewrite El, Hlc in HI. rewrite (Hent I HI).
      rewrite Hzero, !amp_replicate, !Hmul, !Hadd.
      symmetry. apply vec_at_replicate. rewrite Enb.
      destruct Hwf as (Hn & -> & _).
      assert (0 < 2 ^ nqubit_ qc) by (apply Z.pow_pos_nonneg; lia). lia.
  - rewrite apply_gate_not_1qubit by done. eexists; split; [done|].
    destruct Hwf as (?&?&?&?&Hl). unfold wf, scratch_clean; simpl.
    rewrite length_replicate, Hl, Hclean. done.
Qed.

Lemma apply_circuit_zero (gs : list (QuantumGate.t C)) qc :
  (∀ x, Cadd C0 x = x) → (∀ x, Cmul x C0 = C0) →
  wf qc → scratch_clean qc → coeff_ qc = replicate (Z.to_nat (nbasis_ qc)) C0 →
  Forall (λ qg, 0 ≤ QuantumGate.target qg) gs →
  Forall (gate_fits (nqubit_ qc)) gs →
  ∃ qc', for_each gs (λ gate qc, apply_gate gate qc) qc = Some qc'
    ∧ nqubit_ qc' = nqubit_ qc
    ∧ coeff_ qc' = replicate (Z.to_nat (nbasis_ qc')) C0.
Proof.
  intros Hadd Hmul. revert qc.
  induction gs as [|qg gs IH]; intros qc Hwf Hclean Hzero Hpos Hfits.
  - by exists qc.
  - apply Forall_cons in Hpos as [Ht Hpos]. apply Forall_cons in Hfits as [Hfit Hfits].
    destruct (apply_gate_zero qg qc Hadd Hmul Hwf Hclean Hzero Ht Hfit)
      as (qc1 & Hrun & Hwf1 & Hclean1 & En & Hzero1).
    cbn [for_each]. rewrite Hrun. cbn [mbind option_bind].
    destruct (IH qc1 Hwf1 Hclean1 Hzero1 Hpos) as (qc' & -> & En' & Hzero');
      [by rewrite En|].
    exists qc'. split; [done|]. split; [congruence|done].
Qed.

(** X5.  A circuit that holds a gate not declared a one-qubit gate --- a
    two-qubit gate, say --- destroys the state: if every gate fits the
    register, [apply_circuit] returns with all amplitudes zero, whatever
    the state was and whatever gates follow.  (Of the amplitudes'
    arithmetic this uses [0 + x = x] and [x * 0 = 0].) *)
Theorem apply_circuit_other_arity_zeroes (qc_ : QuantumCircuit C) qc :
  (∀ x, Cadd C0 x = x) → (∀ x, Cmul x C0 = C0) →
  wf qc → scratch_clean qc →
  Forall (λ qg, 0 ≤ QuantumGate.target qg) (gates qc_) →
  Forall (gate_fits (nqubit_ qc)) (gates qc_) →
  Exists (λ qg, QuantumGate.nqubits qg ≠ 1) (gates qc_) →
  ∃ qc', apply_circuit qc_ qc = Some qc'
    ∧ coeff_ qc' = replicate (Z.to_nat (2 ^ nqubit_ qc)) C0.
Proof.
  intros Hadd Hmul. unfold apply_circuit. destruct qc_ as [gs]; simpl.
  intros Hwf Hclean Hpos Hfits Hex. revert qc Hwf Hclean Hpos Hfits.
  induction Hex as [qg gs Harity|qg gs Hex IH]; intros qc Hwf Hclean Hpos Hfits;
    apply Forall_cons in Hpos as [Ht Hpos];
    apply Forall_cons in Hfits as [Hfit Hfits]; cbn [for_each].
  - rewrite apply_gate_not_1qubit by done. cbn [mbind option_bind].
    pose proof Hwf as (Hn & Enb & Eb & Hlc & Hln).
    set (qc1 := mkQC _ _ _ _ _).
    assert (wf qc1) as Hwf1.
    { unfold wf, qc1; simpl. by rewrite length_replicate, Hln. }
    assert (scratch_clean qc1) as Hclean1.
    { unfold scratch_clean, qc1; simpl. by rewrite Hln. }
    destruct (apply_circuit_zero gs qc1 Hadd Hmul Hwf1 Hclean1 Hclean Hpos Hfits)
      as (qc' & Hrun & En & Hzero).
    exists qc'. split; [done|]. rewrite Hzero.
    assert (wf qc') as (_ & -> & _).
    { by eapply apply_circuit_returns_wf. }
    by rewrite En.
  - destruct (apply_gate_fit qg qc Hwf Ht Hfit) as (qc1 & -> & Hwf1 & Hclean1 & En).
    cbn [mbind option_bind].
    destruct (IH qc1 Hwf1 Hclean1 Hpos) as (qc' & -> & Hzero); [by rewrite En|].
    exists qc'. split; [done|]. by rewrite <-En.
Qed.

(** X15.  The identity matrix changes nothing: from a well-formed register
    with a clean scratch buffer, [apply_gate] with a one-qubit gate whose
    matrix is the identity returns the register as it was. *)
Theorem apply_gate_identity qg qc :
  amplitude_laws →
  wf qc → scratch_clean qc → QuantumGate.nqubits qg = 1 →
  0 ≤ QuantumGate.target qg < nqubit_ qc →
  identity_matrix (QuantumGate.gate qg) →
  apply_gate qg qc = Some qc.
Proof.
  intros (Hadd0l & Hadd0r & Hmul1 & Hmul0 & _) Hwf Hclean Harity Ht
         (G00 & G01 & G10 & G11).
  destruct (apply_gate_1qubit_run qg qc Hwf Hclean Harity Ht)
    as (qc' & Hrun & En & Enb & Eb & Enew & El & Hent).
  rewrite Hrun. f_equal. apply QuantumComputer_eq; try done.
  destruct (wf_lengths _ Hwf) as [Hlc _].
  apply vec_ext; [done|]. intros I HI. rewrite El, Hlc in HI.
  rewrite (Hent I HI), (amp_vec_at (coeff_ qc) I) by lia. f_equal.
  destruct (Z.testbit I (QuantumGate.target qg)) eqn:Hbit; cbn [Z.b2z].
  - rewrite G10, G11, Hmul0, Hmul1, Hadd0l, Hadd0l.
    by rewrite set_bit_same by (done || lia).
  - rewrite G00, G01, Hmul0, Hmul1, Hadd0l, Hadd0r.
    by rewrite set_bit_same by (done || lia).
Qed.

(** X16.  The bit-flip matrix exchanges the amplitudes of the basis states
    that differ in the target qubit, and applying it twice gives the
    register back. *)
Theorem apply_gate_bit_flip qg qc :
  amplitude_laws →
  wf qc → scratch_clean qc → QuantumGate.nqubits qg = 1 →
  0 ≤ QuantumGate.target qg < nqubit_ qc →
  bit_flip_matrix (QuantumGate.gate qg) →
  ∃ qc', apply_gate qg qc = Some qc'
    ∧ (∀ I, 0 ≤ I < 2 ^ nqubit_ qc →
         coeff (Basis.mk I) qc'
         = coeff (flip_bit (QuantumGate.target qg) (Basis.mk I)) qc)
    ∧ apply_gate qg qc' = Some qc.
Proof.
  intros (Hadd0l & Hadd0r & Hmul1 & Hmul0 & _) Hwf Hclean Harity Ht
         (G00 & G01 & G10 & G11).
  assert (∀ q q', wf q →
            (∀ I, 0 ≤ I < 2 ^ nqubit_ q →
               vec_at (coeff_ q') I
               = Some (Cadd (Cadd C0
                   (Cmul (QuantumGate.gate qg (Z.b2z (Z.testbit I (QuantumGate.target qg))) 0)
                      (amp (coeff_ q) (Basis.add
                         (Basis.set_bit (QuantumGate.target qg) false (Basis.mk I))))))
                   (Cmul (QuantumGate.gate qg (Z.b2z (Z.testbit I (QuantumGate.target qg))) 1)
                      (amp (coeff_ q) (Basis.add
                         (Basis.set_bit (QuantumGate.target qg) true (Basis.mk I))))))) →
            ∀ I, 0 ≤ I < 2 ^ nqubit_ q →
              vec_at (coeff_ q') I
              = Some (amp (coeff_ q)
                        (Basis.add (flip_bit (QuantumGate.target qg) (Basis.mk I)))))
    as Hflip.
  { intros q q' _ Hent I HI. rewrite (Hent I HI). f_equal.
    unfold flip_bit, Basis.get_bit. cbn [Basis.state_].
    destruct (Z.testbit I (QuantumGate.target qg)); simpl negb; cbn [Z.b2z].
    - by rewrite G10, G11, Hmul0, Hmul1, Hadd0l, Hadd0r.
    - by rewrite G00, G01, Hmul0, Hmul1, Hadd0l, Hadd0l. }
  destruct (apply_gate_1qubit_run qg qc Hwf Hclean Harity Ht)
    as (qc' & Hrun & En & Enb & Eb & Enew & El & Hent).
  destruct (apply_gate_returns_wf qg qc qc' Hwf Hrun) as (Hwf' & Hclean' & _).
  destruct (apply_gate_1qubit_run qg qc' Hwf' Hclean' Harity)
    as (qc'' & Hrun' & En' & Enb' & Eb' & Enew' & El' & Hent'); [by rewrite En|].
  pose proof (Hflip qc qc' Hwf Hent) as H1.
  pose proof (Hflip qc' qc'' Hwf' Hent') as H2.
  destruct (wf_lengths _ Hwf) as [Hlc _].
  assert (∀ I, 0 ≤ I < 2 ^ nqubit_ qc →
            0 ≤ Basis.add (flip_bit (QuantumGate.target qg) (Basis.mk I))
              < 2 ^ nqubit_ qc) as Hrange.
  { intros I HI. unfold flip_bit. by apply set_bit_range. }
  exists qc'. split; [done|]. split.
  - intros I HI. unfold coeff. cbn [Basis.add Basis.state_] in *.
    rewrite (H1 I HI). symmetry. apply amp_vec_at. rewrite Hlc. by apply Hrange.
  - rewrite Hrun'. f_equal. apply QuantumComputer_eq; try congruence.
    apply vec_ext; [congruence|]. intros I HI. rewrite El', El, Hlc in HI.
    rewrite H2 by (by rewrite En).
    rewrite (amp_vec_at (coeff_ qc) I) by lia. f_equal.
    pose proof (Hrange I HI) as HfI.
    set (bF := flip_bit (QuantumGate.target qg) (Basis.mk I)) in *.
    assert (vec_at (coeff_ qc') (Basis.add bF)
            = Some (amp (coeff_ qc)
                      (Basis.add (flip_bit (QuantumGate.target qg) (Basis.mk (Basis.add bF))))))
      as Hx by (by apply H1).
    unfold amp at 1. rewrite Hx. cbn [default].
    replace (Basis.mk (Basis.add bF)) with bF by (by destruct bF).
    unfold bF. by rewrite flip_bit_flip_bit by lia.
Qed.

End OneQubitGates.

(** ** State assignment and amplitude reads *)

Section StateAccess.
Context {C : Type} `{Amplitude C}.
Implicit Types (qc : QuantumComputer C).

(** X7.  [set_state] returns exactly when every pair of its input names an
    index of [coeff_]: a single pair past the end leaves the call without
    a defined result, wherever it stands in the input. *)
Theorem set_state_is_Some (state : list (Basis.t * C)) qc :
  is_Some (set_state state qc)
  ↔ Forall (λ basis_c, 0 ≤ Basis.add basis_c.1 < Z.of_nat (length (coeff_ qc))) state.
Proof.
  split.
  - intros [qc' Hrun]. by apply set_state_Some_inv in Hrun as [? _].
  - intros Hrange. unfold set_state.
    destruct (set_state_loop state (set_coeff (vec_fill (coeff_ qc) C0) qc))
      as (v & -> & _); [|done].
    simpl. unfold vec_fill. by rewrite length_replicate.
Qed.

(** X8.  A second [set_state] discards what the first one wrote: after any
    [set_state] that returned, [set_state state2] gives what it gives on
    the register before. *)
Theorem set_state_overwrites (state1 state2 : list (Basis.t * C)) qc qc1 :
  set_state state1 qc = Some qc1 →
  set_state state2 qc1 = set_state state2 qc.
Proof.
  intros Hrun. apply set_state_Some_inv in Hrun as (_ & En & Enb & Eb & Enew & El).
  unfold set_state, set_coeff, vec_fill; simpl.
  by rewrite En, Enb, Eb, Enew, El.
Qed.

(** X9.  On a well-formed register [coeff] has a value exactly for the
    basis states below [2^N]; it does not check its argument. *)
Theorem coeff_is_Some (basis : Basis.t) qc :
  wf qc →
  is_Some (coeff basis qc) ↔ 0 ≤ Basis.add basis < 2 ^ nqubit_ qc.
Proof.
  intros Hwf. destruct (wf_lengths _ Hwf) as [Hlc _]. unfold coeff. split.
  - intros [c Hc]. apply vec_at_lt in Hc. lia.
  - intros Hb. apply vec_at_is_Some. lia.
Qed.

End StateAccess.

(** ** [Basis::insert] as an enumeration *)

(** X10.  [insert] loses nothing: for a position from 0 to 30, two values
    below [2^63] with the same result are the same value. *)
Theorem insert_injective (pos a b : Z) :
  0 ≤ pos < int_bits - 1 →
  0 ≤ a < 2 ^ (basis_bits - 1) → 0 ≤ b < 2 ^ (basis_bits - 1) →
  Basis.insert pos (Basis.mk a) = Basis.insert pos (Basis.mk b) → a = b.
Proof.
  intros Hpos Ha Hb Heq.
  destruct (insert_bits pos a Hpos Ha) as (ra & Hra & _ & Hbits_a).
  destruct (insert_bits pos b Hpos Hb) as (rb & Hrb & _ & Hbits_b).
  assert (ra = rb) as <- by congruence.
  apply Z.bits_inj'. intros k Hk.
  destruct (decide (k < pos)) as [Hlt|Hge].
  - pose proof (Hbits_a k Hk) as Hx. pose proof (Hbits_b k Hk) as Hy.
    rewrite bool_decide_eq_true_2 in Hx, Hy by done. congruence.
  - pose proof (Hbits_a (k + 1) ltac:(lia)) as Hx.
    pose proof (Hbits_b (k + 1) ltac:(lia)) as Hy.
    rewrite bool_decide_eq_false_2 in Hx, Hy by lia.
    replace (k + 1 - 1) with k in Hx, Hy by lia. congruence.
Qed.

(** X11.  What the insertion variant relies on: for a target [t] from 0 to
    30 below the qubit count [N] and a bit value [v], [insert(t)] followed
    by [set_bit(t, v)] maps the values below [2^(N-1)] one-to-one onto the
    basis states below [2^N] whose qubit [t] is [v]. *)
Theorem insert_set_bit_enumerates (N t : Z) (v : bool) :
  0 ≤ t < N → t < int_bits - 1 → N < basis_bits →
  (∀ K, 0 ≤ K < 2 ^ (N - 1) →
     ∃ b, Basis.insert t (Basis.mk K) = Some b
          ∧ 0 ≤ Basis.state_ (Basis.set_bit t v b) < 2 ^ N
          ∧ Basis.get_bit t (Basis.set_bit t v b) = v)
  ∧ (∀ I, 0 ≤ I < 2 ^ N → Basis.get_bit t (Basis.mk I) = v →
       ∃ K, 0 ≤ K < 2 ^ (N - 1)
            ∧ (∃ b, Basis.insert t (Basis.mk K) = Some b
                    ∧ Basis.set_bit t v b = Basis.mk I)
            ∧ ∀ K' b', 0 ≤ K' < 2 ^ (N - 1) →
                Basis.insert t (Basis.mk K') = Some b' →
                Basis.set_bit t v b' = Basis.mk I → K' = K).
Proof.
  intros Ht Ht' HN. pose proof (pow2_le_basis N ltac:(lia)) as Hle. split.
  - intros K HK.
    destruct (open_slot_defined t K) as [Hins _]; [lia..|].
    exists (open_slot t K). split; [done|]. split.
    + apply set_open_slot_range; lia.
    + unfold Basis.get_bit. rewrite testbit_set_bit by lia.
      by rewrite bool_decide_eq_true_2.
  - intros I HI Hbit.
    pose proof (close_slot_range N t I Ht HI) as Hclose.
    exists (close_slot t I). split; [done|]. split.
    + destruct (open_slot_defined t (close_slot t I)) as [Hins _]; [lia..|].
      exists (open_slot t (close_slot t I)). split; [done|].
      apply insertion_selects; [lia..|done].
    + intros K' b' HK' Hins' Hset.
      destruct (open_slot_defined t K') as [Hins _]; [lia..|].
      assert (b' = open_slot t K') as -> by congruence.
      apply insertion_selects in Hset; [by destruct Hset|lia..].
Qed.

(** ** Rendering *)

Lemma filter_none {A} (P : A → Prop) `{∀ x, Decision (P x)} (l : list A) :
  Forall (λ x, ¬ P x) l → filter P l = [].
Proof.
  induction 1 as [|x l Hx _ IH]; [done|].
  by rewrite filter_cons, decide_False.
Qed.

Lemma str_get_bit (nqubit : Z) (b : Basis.t) s i :
  0 ≤ nqubit → Basis.str nqubit b = Some s → 0 ≤ i < nqubit →
  String.get (S (Z.to_nat i)) s = Some (bit_char (Basis.get_bit i b)).
Proof.
  intros Hn Hs Hi. unfold Basis.str in Hs. case_bool_decide; [|done].
  injection Hs as <-.
  pose proof (str_loop_chars b (Z.to_nat nqubit)) as Hloop.
  rewrite Z2Nat.id in Hloop by lia. cbv zeta in Hloop.
  destruct Hloop as (Hlen & _ & Hbits).
  rewrite <-String.append_correct1 by lia.
  rewrite Hbits by lia. by rewrite Z2Nat.id by lia.
Qed.

(** X12.  The ket is unambiguous: two basis states of an [nqubit]-qubit
    register with the same rendering are the same state. *)
Theorem str_injective (nqubit : Z) (a b : Basis.t) :
  0 ≤ nqubit ≤ INT_MAX →
  0 ≤ Basis.state_ a < 2 ^ nqubit → 0 ≤ Basis.state_ b < 2 ^ nqubit →
  Basis.str nqubit a = Basis.str nqubit b → a = b.
Proof.
  intros Hn Ha Hb Heq.
  assert (is_Some (Basis.str nqubit a)) as [s Hs].
  { unfold Basis.str. by rewrite bool_decide_eq_true_2 by lia. }
  rewrite Hs in Heq. symmetry in Heq.
  apply basis_eq. intros k Hk.
  destruct (decide (k < nqubit)) as [Hlt|Hge].
  - pose proof (str_get_bit nqubit a s k ltac:(lia) Hs ltac:(lia)) as Hx.
    pose proof (str_get_bit nqubit b s k ltac:(lia) Heq ltac:(lia)) as Hy.
    rewrite Hx in Hy. unfold Basis.get_bit in Hy.
    by destruct (Z.testbit (Basis.state_ a) k), (Z.testbit (Basis.state_ b) k).
  - destruct Ha as [Ha0 Ha], Hb as [Hb0 Hb], Hn as [Hn _].
    rewrite (proj1 (below_pow2_bits nqubit _ Hn Ha0) Ha) by lia.
    by rewrite (proj1 (below_pow2_bits nqubit _ Hn Hb0) Hb) by lia.
Qed.

(** X14.  [QuantumCircuit::str] returns one line per gate, in circuit
    order: the renderings of the gates, first gate first. *)
Theorem QuantumCircuit_str_lines {C : Type} (gate_str : QuantumGate.t C → string)
    (qc_ : QuantumCircuit C) :
  QuantumCircuit_str gate_str qc_ = gate_str <$> gates qc_
  ∧ length (QuantumCircuit_str gate_str qc_) = length (gates qc_).
Proof.
  assert (∀ (l : list (QuantumGate.t C)) acc,
            foldl (λ s gate, s ++ [gate_str gate]) acc l = acc ++ (gate_str <$> l))
    as Hfold.
  { induction l as [|g l IH]; intros acc; simpl; [by rewrite app_nil_r|].
    rewrite IH, <-app_assoc. done. }
  unfold QuantumCircuit_str. rewrite Hfold. simpl.
  split; [done|]. apply length_fmap.
Qed.

Section GroundState.
Context {C : Type} `{Amplitude C} `{Printing C}.

(** X13.  A register fresh from the constructor prints one term, that of
    the all-zero ket with amplitude one, whenever one passes the magnitude
    test and zero does not. *)
Theorem str_ground_state (print_threshold_ : threshold) (N : Z) :
  0 ≤ N < basis_bits →
  abs_ge C1 print_threshold_ = true → abs_ge C0 print_threshold_ = false →
  ∃ (qc : QuantumComputer C) ket,
    QuantumComputer_new N = Some qc
    ∧ Basis.str N (Basis.mk 0) = Some ket
    ∧ str print_threshold_ qc = Some [format_term C1 ket].
Proof.
  intros HN Hone Hzero.
  destruct (QuantumComputer_new_wf N HN) as (qc & Hnew & En & Hwf & _ & Ec).
  assert (0 < 2 ^ N) as Hpos by (apply Z.pow_pos_nonneg; lia).
  assert (is_Some (Basis.str N (Basis.mk 0))) as [ket Hket].
  { unfold Basis.str. rewrite bool_decide_eq_true_2; [done|].
    unfold INT_MAX, int_bits, basis_bits in *. simpl. lia. }
  exists qc, ket. split; [done|]. split; [done|].
  pose proof Hwf as (_ & Enb & _). rewrite En in Enb.
  pose proof (str_loop (Z.to_nat (nbasis_ qc)) print_threshold_ qc Hwf) as Hloop.
  rewrite Z2Nat.id in Hloop by lia. unfold str. rewrite Hloop by lia.
  assert (amp (coeff_ qc) 0 = C1) as Hamp0.
  { unfold amp. rewrite Ec. change 0%nat with (Z.to_nat 0).
    rewrite vec_at_insert by (rewrite length_replicate; lia).
    by rewrite bool_decide_eq_true_2. }
  assert (∀ i, 0 < i → amp (coeff_ qc) i = C0) as Hampi.
  { intros i Hi. unfold amp. rewrite Ec. change 0%nat with (Z.to_nat 0).
    destruct (decide (i < 2 ^ N)).
    - rewrite vec_at_insert by (rewrite length_replicate; lia).
      rewrite bool_decide_eq_false_2 by lia.
      by rewrite vec_at_replicate by lia.
    - rewrite vec_at_None; [done|]. rewrite length_insert, length_replicate. lia. }
  rewrite Enb, seqZ_cons, filter_cons, decide_True by (by rewrite ?Hamp0).
  rewrite filter_none.
  - cbn [fmap list_fmap]. unfold rendered_term. by rewrite Hamp0, En, Hket.
  - apply Forall_seqZ. intros i Hi. rewrite Hampi by lia. by rewrite Hzero.
Qed.

End GroundState.

(** ** The two-qubit routine on its own *)

Lemma for_each_defined {A S : Type} (P : S → Prop) (l : list A)
    (body : A → S → option S) s :
  (∀ x s1, x ∈ l → P s1 → ∃ s2, body x s1 = Some s2 ∧ P s2) →
  P s → ∃ s', for_each l body s = Some s' ∧ P s'.
Proof.
  revert s. induction l as [|x l IH]; intros s Hbody Hs; [by exists s|].
  destruct (Hbody x s) as (s1 & Hx & Hs1); [left|done|].
  cbn [for_each]. rewrite Hx. cbn [mbind option_bind].
  apply IH; [|done]. intros y s2 Hy. apply Hbody. by right.
Qed.

Lemma set_bit_pow2 c t :
  0 ≤ c → 0 ≤ t → c ≠ t →
  Basis.state_ (Basis.set_bit t false (Basis.set_bit c true (Basis.mk 0))) = 2 ^ c.
Proof.
  intros Hc Ht Hne. apply Z.bits_inj'. intros k Hk.
  rewrite !testbit_set_bit by done. cbn [Basis.state_].
  rewrite Z.bits_0, Z.pow2_bits_eqb by done.
  repeat case_bool_decide; subst; try done.
  - symmetry. apply Z.eqb_neq. done.
  - symmetry. apply Z.eqb_refl.
  - symmetry. apply Z.eqb_neq. congruence.
Qed.

Section TwoQubitRange.
Context {C : Type} `{Amplitude C}.
Implicit Types (qc : QuantumComputer C) (qg : QuantumGate.t C).

(** The four passes of the two-qubit routine for one matrix row. *)
Lemma two_qubit_row_defined qg (i i_c i_t : Z) qc :
  wf qc →
  (∀ J, 0 ≤ J < 2 ^ nqubit_ qc →
        0 ≤ Basis.state_ (Basis.set_bit (QuantumGate.target qg) (to_bool i_t)
                            (Basis.set_bit (QuantumGate.control qg) (to_bool i_c)
                               (Basis.mk J)))
          < 2 ^ nqubit_ qc) →
  ∃ qc', for_each (seqZ 0 4) (λ j qc,
           '(j_c, j_t) ← vec_at QuantumGate.two_qubits_basis j;
           let op_i_j := QuantumGate.gate qg i j in
           for_each (basis_ qc) (λ basis_J qc,
             if bool_eq_size_t (Basis.get_bit (QuantumGate.control qg) basis_J) j_c
                && bool_eq_size_t (Basis.get_bit (QuantumGate.target qg) basis_J) j_t then
               let basis_I := basis_J in
               let basis_I := Basis.set_bit (QuantumGate.control qg) (to_bool i_c) basis_I in
               let basis_I := Basis.set_bit (QuantumGate.target qg) (to_bool i_t) basis_I in
               accumulate basis_I basis_J op_i_j qc
             else Some qc) qc) qc = Some qc'
         ∧ wf qc' ∧ same_but_scratch qc qc'.
Proof.
  intros Hwf Hdst.
  apply (for_each_defined (λ q, wf q ∧ same_but_scratch qc q));
    [|split; [done|apply same_but_scratch_refl]].
  intros j q Hj [Hwfq Hsq].
  rewrite two_qubits_basis_lookup by (by apply elem_of_seqZ in Hj).
  cbn [mbind option_bind]. cbv zeta.
  destruct (pass_defined
              (λ bJ, bool_eq_size_t (Basis.get_bit (QuantumGate.control qg) bJ) (j / 2)
                     && bool_eq_size_t (Basis.get_bit (QuantumGate.target qg) bJ) (j mod 2))
              (λ bJ, Basis.set_bit (QuantumGate.target qg) (to_bool i_t)
                       (Basis.set_bit (QuantumGate.control qg) (to_bool i_c) bJ))
              (QuantumGate.gate qg i j) q Hwfq) as (q' & Hrun & Hs').
  { intros J HJ _. destruct Hsq as (En & _). rewrite En in HJ |- *. by apply Hdst. }
  exists q'. split; [done|]. split.
  - by eapply wf_same_but_scratch.
  - by eapply same_but_scratch_trans.
Qed.

(** A row whose first pass sends [Basis(0)] past the end of [new_coeff_]. *)
Lemma two_qubit_row_undefined qg (i i_c i_t : Z) qc :
  wf qc →
  2 ^ nqubit_ qc
    ≤ Basis.state_ (Basis.set_bit (QuantumGate.target qg) (to_bool i_t)
                      (Basis.set_bit (QuantumGate.control qg) (to_bool i_c)
                         (Basis.mk 0))) →
  for_each (seqZ 0 4) (λ j qc,
    '(j_c, j_t) ← vec_at QuantumGate.two_qubits_basis j;
    let op_i_j := QuantumGate.gate qg i j in
    for_each (basis_ qc) (λ basis_J qc,
      if bool_eq_size_t (Basis.get_bit (QuantumGate.control qg) basis_J) j_c
         && bool_eq_size_t (Basis.get_bit (QuantumGate.target qg) basis_J) j_t then
        let basis_I := basis_J in
        let basis_I := Basis.set_bit (QuantumGate.control qg) (to_bool i_c) basis_I in
        let basis_I := Basis.set_bit (QuantumGate.target qg) (to_bool i_t) basis_I in
        accumulate basis_I basis_J op_i_j qc
      else Some qc) qc) qc = None.
Proof.
  intros Hwf Hdst. change (seqZ 0 4) with [0; 1; 2; 3]. cbn [for_each].
  change (vec_at QuantumGate.two_qubits_basis 0) with (Some (0, 0)).
  cbn [mbind option_bind]. cbv beta iota zeta.
  rewrite (pass_undefined
             (λ bJ, bool_eq_size_t (Basis.get_bit (QuantumGate.control qg) bJ) 0
                    && bool_eq_size_t (Basis.get_bit (QuantumGate.target qg) bJ) 0)
             (λ bJ, Basis.set_bit (QuantumGate.target qg) (to_bool i_t)
                      (Basis.set_bit (QuantumGate.control qg) (to_bool i_c) bJ))
             (QuantumGate.gate qg i 0) qc); [done|done| |done].
  unfold bool_eq_size_t, Basis.get_bit. simpl. by rewrite !Z.bits_0.
Qed.

(** With the target or the control at or past the qubit count the routine
    reaches a subscript past the end of [new_coeff_]. *)
Lemma apply_2qubit_gate_out_of_range qg qc :
  wf qc → 0 ≤ QuantumGate.control qg → 0 ≤ QuantumGate.target qg →
  nqubit_ qc ≤ QuantumGate.control qg ∨ nqubit_ qc ≤ QuantumGate.target qg →
  apply_2qubit_gate qg qc = None.
Proof.
  intros Hwf Hc Ht Hout. pose proof Hwf as (Hn & _).
  unfold apply_2qubit_gate. cbv zeta.
  change (seqZ 0 4) with [0; 1; 2; 3] at 1. cbn [for_each].
  change (vec_at QuantumGate.two_qubits_basis 0) with (Some (0, 0)) at 1.
  change (vec_at QuantumGate.two_qubits_basis 1) with (Some (0, 1)) at 1.
  change (vec_at QuantumGate.two_qubits_basis 2) with (Some (1, 0)) at 1.
  cbn [mbind option_bind]. cbv beta iota.
  destruct (two_qubit_row_defined qg 0 0 0 qc Hwf) as (qc1 & Hrun1 & Hwf1 & Hs1).
  { intros J HJ. rewrite to_bool_0.
    apply clear_bit_range; [lia..|]. apply clear_bit_range; [lia..|done]. }
  cbv zeta in Hrun1. rewrite Hrun1. cbn [mbind option_bind].
  pose proof Hs1 as (En1 & _).
  destruct (decide (nqubit_ qc ≤ QuantumGate.target qg)) as [Hgt|Hlt].
  - pose proof (two_qubit_row_undefined qg 1 0 1 qc1 Hwf1) as Hrow.
    cbv zeta in Hrow. rewrite Hrow; [done|].
    rewrite to_bool_0, to_bool_1.
    rewrite (set_bit_same _ false (Basis.mk 0)) by (done || apply Z.bits_0).
    rewrite set_bit_true_zero by lia. rewrite En1. apply Z.pow_le_mono_r; lia.
  - assert (nqubit_ qc ≤ QuantumGate.control qg) as Hgc by lia.
    destruct (two_qubit_row_defined qg 1 0 1 qc1 Hwf1) as (qc2 & Hrun2 & Hwf2 & Hs2).
    { intros J HJ. rewrite En1 in HJ |- *. rewrite to_bool_0, to_bool_1.
      apply set_bit_range; [lia|]. apply clear_bit_range; [lia..|done]. }
    cbv zeta in Hrun2. rewrite Hrun2. cbn [mbind option_bind].
    pose proof (two_qubit_row_undefined qg 2 1 0 qc2 Hwf2) as Hrow.
    cbv zeta in Hrow. rewrite Hrow; [done|].
    rewrite to_bool_0, to_bool_1, set_bit_pow2 by lia.
    destruct Hs2 as (En2 & _). rewrite En2, En1. apply Z.pow_le_mono_r; lia.
Qed.

(** X20.  On a well-formed register [apply_2qubit_gate] returns exactly
    when both the control and the target are below the qubit count; it
    makes no other check (control and target may coincide). *)
Theorem apply_2qubit_gate_is_Some qg qc :
  wf qc → 0 ≤ QuantumGate.control qg → 0 ≤ QuantumGate.target qg →
  is_Some (apply_2qubit_gate qg qc)
  ↔ QuantumGate.control qg < nqubit_ qc ∧ QuantumGate.target qg < nqubit_ qc.
Proof.
  intros Hwf Hc Ht. split.
  - intros [qc' Hrun].
    destruct (decide (QuantumGate.control qg < nqubit_ qc
                      ∧ QuantumGate.target qg < nqubit_ qc)) as [|Hno]; [done|].
    rewrite apply_2qubit_gate_out_of_range in Hrun; [done|done..|lia].
  - intros [Hc' Ht'].
    by destruct (apply_2qubit_gate_accumulated qg qc Hwf) as (qc' & -> & _).
Qed.

End TwoQubitRange.

Section ControlledNot.
Context {C : Type} `{Amplitude C}.
Implicit Types (qc : QuantumComputer C) (qg : QuantumGate.t C).

Lemma cnot_matrix_rows (gate : Z → Z → C) :
  cnot_matrix gate →
  (gate 0 0 = C1 ∧ gate 0 1 = C0 ∧ gate 0 2 = C0 ∧ gate 0 3 = C0) ∧
  (gate 1 0 = C0 ∧ gate 1 1 = C1 ∧ gate 1 2 = C0 ∧ gate 1 3 = C0) ∧
  (gate 2 0 = C0 ∧ gate 2 1 = C0 ∧ gate 2 2 = C0 ∧ gate 2 3 = C1) ∧
  (gate 3 0 = C0 ∧ gate 3 1 = C0 ∧ gate 3 2 = C1 ∧ gate 3 3 = C0).
Proof.
  intros Hcnot. repeat split; by rewrite Hcnot by lia.
Qed.

(** X18.  With the controlled-not matrix, distinct control and target
    below the qubit count and a clean scratch buffer, [apply_2qubit_gate]
    writes into [new_coeff_] the amplitudes of [coeff_] with the target
    qubit flipped in the basis states whose control qubit is set, and
    leaves [coeff_] as it is. *)
Theorem apply_2qubit_gate_cnot qg qc :
  amplitude_laws →
  wf qc → scratch_clean qc →
  0 ≤ QuantumGate.control qg < nqubit_ qc →
  0 ≤ QuantumGate.target qg < nqubit_ qc →
  QuantumGate.control qg ≠ QuantumGate.target qg →
  cnot_matrix (QuantumGate.gate qg) →
  ∃ qc', apply_2qubit_gate qg qc = Some qc'
    ∧ same_but_scratch qc qc'
    ∧ ∀ I, 0 ≤ I < 2 ^ nqubit_ qc →
        vec_at (new_coeff_ qc') I
        = coeff (cnot_image (QuantumGate.control qg) (QuantumGate.target qg)
                   (Basis.mk I)) qc.
Proof.
  intros (Hadd0l & Hadd0r & Hmul1 & Hmul0 & _) Hwf Hclean Hc Ht Hne Hcnot.
  apply cnot_matrix_rows in Hcnot
    as ((G00 & G01 & G02 & G03) & (G10 & G11 & G12 & G13)
        & (G20 & G21 & G22 & G23) & (G30 & G31 & G32 & G33)).
  destruct (apply_2qubit_gate_accumulated qg qc Hwf Hc Ht) as (qc' & Hrun & Hs & Hacc).
  exists qc'. split; [done|]. split; [done|]. intros I HI.
  destruct (wf_lengths _ Hwf) as [Hlc Hln].
  assert (vec_at (new_coeff_ qc) I = Some C0) as Hzero.
  { rewrite Hclean. apply vec_at_replicate.
    destruct Hwf as (_ & -> & _). lia. }
  rewrite (Hacc I C0 Hzero).
  pose proof Hwf as (_ & Enb & Eb & _). rewrite Eb, Enb.
  pose proof (acc_terms_events_2qubit (coeff_ qc) (nqubit_ qc) qg I C0 Hc Ht Hne HI)
    as Hterms. cbv zeta in Hterms. rewrite Hterms.
  assert (∀ b : Basis.t, 0 ≤ Basis.add b < 2 ^ nqubit_ qc →
            coeff b qc = Some (amp (coeff_ qc) (Basis.add b))) as Hcoeff.
  { intros b Hb. apply amp_coeff. lia. }
  unfold cnot_image, flip_bit, Basis.get_bit. cbn [Basis.state_].
  destruct (Z.testbit I (QuantumGate.control qg)) eqn:Hbc,
           (Z.testbit I (QuantumGate.target qg)) eqn:Hbt; cbn [Z.b2z negb].
  - change (2 * 1 + 1) with 3.
    rewrite G30, G31, G32, G33, !Hmul0, Hmul1, !Hadd0l, Hadd0r.
    rewrite (set_bit_same _ true (Basis.mk I)) by (done || lia).
    rewrite Hcoeff; [done|]. by apply set_bit_range.
  - change (2 * 1 + 0) with 2.
    rewrite G20, G21, G22, G23, !Hmul0, Hmul1, !Hadd0l.
    rewrite (set_bit_same _ true (Basis.mk I)) by (done || lia).
    rewrite Hcoeff; [done|]. by apply set_bit_range.
  - change (2 * 0 + 1) with 1.
    rewrite G10, G11, G12, G13, !Hmul0, Hmul1, !Hadd0l, !Hadd0r.
    rewrite (set_bit_same _ false (Basis.mk I)) by (done || lia).
    rewrite (set_bit_same _ true (Basis.mk I)) by (done || lia).
    by rewrite Hcoeff.
  - change (2 * 0 + 0) with 0.
    rewrite G00, G01, G02, G03, !Hmul0, Hmul1, Hadd0l, !Hadd0r.
    rewrite (set_bit_same _ false (Basis.mk I)) by (done || lia).
    rewrite (set_bit_same _ false (Basis.mk I)) by (done || lia).
    by rewrite Hcoeff.
Qed.

End ControlledNot.

Lemma set_bit_set_bit pos (v w : bool) (b : Basis.t) :
  0 ≤ pos → Basis.set_bit pos v (Basis.set_bit pos w b) = Basis.set_bit pos v b.
Proof.
  intros Hpos. apply basis_eq. intros k Hk. rewrite !testbit_set_bit by done.
  by case_bool_decide.
Qed.

Section SameQubit.
Context {C : Type} `{Amplitude C}.
Implicit Types (qc : QuantumComputer C) (qg : QuantumGate.t C).

Lemma scan_ext sel sel' dst dst' (op : C) (l : list Basis.t) :
  (∀ b, sel b = sel' b) → (∀ b, dst b = dst' b) →
  scan sel dst op l = scan sel' dst' op l.
Proof.
  intros Hsel Hdst. unfold scan. induction l as [|x l IH]; [done|].
  by rewrite !bind_cons, IH, Hsel, Hdst.
Qed.

(** One pass of the two-qubit routine when control and target are the same
    qubit [q]: the filter asks bit [q] to be both bits of combination [j],
    and of the two writes the second, the target bit of combination [i],
    stays. *)
Lemma acc_terms_scan_same_qubit c n q (ic it jc jt : Z) op I a :
  0 ≤ q < n → 0 ≤ I < 2 ^ n →
  0 ≤ ic ≤ 1 → 0 ≤ it ≤ 1 → 0 ≤ jc ≤ 1 → 0 ≤ jt ≤ 1 →
  acc_terms c I
    (scan (λ bJ, bool_decide (Z.b2z (Basis.get_bit q bJ) = jc)
                 && bool_decide (Z.b2z (Basis.get_bit q bJ) = jt))
          (λ bJ, Basis.set_bit q (to_bool it) (Basis.set_bit q (to_bool ic) bJ))
          op (Basis.mk <$> seqZ 0 (2 ^ n))) a
  = if bool_decide (jc = jt ∧ Z.testbit I q = to_bool it)
    then Cadd a (Cmul op (amp c (Basis.add (Basis.set_bit q (to_bool jc) (Basis.mk I)))))
    else a.
Proof.
  intros Hq HI Hic Hit Hjc Hjt.
  destruct (decide (jc = jt)) as [<-|Hne].
  - rewrite (scan_ext _ (λ bJ, bool_decide (Z.b2z (Basis.get_bit q bJ) = jc))
               _ (Basis.set_bit q (to_bool it))).
    + rewrite (acc_terms_scan_set_bit c n q (to_bool it) (to_bool jc));
        [|done|done|].
      * by repeat case_bool_decide; try done; destruct_and?; try done;
          exfalso; eauto.
      * intros bJ. rewrite bool_decide_eq_true. by apply b2z_eq_to_bool.
    + intros b. apply andb_diag.
    + intros b. apply set_bit_set_bit. lia.
  - rewrite bool_decide_eq_false_2 by (by intros [??]).
    rewrite scan_emit. apply acc_terms_emit_none.
    intros bJ _ [E1 E2]%andb_true_iff.
    apply bool_decide_eq_true in E1, E2. congruence.
Qed.

(** X19.  Control and target may be the same qubit [q]; the routine does
    not reject it.  Entry [I] then receives four terms, from the columns 0
    and 3 of the two matrix rows whose target bit is bit [q] of [I]: with
    [b] that bit, [op[b][0]*c[J0] + op[b][3]*c[J1] + op[b+2][0]*c[J0]
    + op[b+2][3]*c[J1]], [J0] and [J1] being [I] with bit [q] cleared and
    set. *)
Theorem apply_2qubit_gate_same_qubit qg qc :
  wf qc →
  QuantumGate.control qg = QuantumGate.target qg →
  0 ≤ QuantumGate.target qg < nqubit_ qc →
  ∃ qc', apply_2qubit_gate qg qc = Some qc'
    ∧ same_but_scratch qc qc'
    ∧ ∀ I a, vec_at (new_coeff_ qc) I = Some a →
        let q := QuantumGate.target qg in
        let b := Z.b2z (Z.testbit I q) in
        let c0 := amp (coeff_ qc) (Basis.add (Basis.set_bit q false (Basis.mk I))) in
        let c1 := amp (coeff_ qc) (Basis.add (Basis.set_bit q true (Basis.mk I))) in
        vec_at (new_coeff_ qc') I
        = Some (Cadd (Cadd (Cadd (Cadd a
            (Cmul (QuantumGate.gate qg b 0) c0))
            (Cmul (QuantumGate.gate qg b 3) c1))
            (Cmul (QuantumGate.gate qg (b + 2) 0) c0))
            (Cmul (QuantumGate.gate qg (b + 2) 3) c1)).
Proof.
  intros Hwf Hsame Ht.
  destruct (apply_2qubit_gate_accumulated qg qc Hwf) as (qc' & Hrun & Hs & Hacc);
    [by rewrite Hsame|done|].
  exists qc'. split; [done|]. split; [done|]. intros I a Ha. cbv zeta.
  rewrite (Hacc I a Ha). f_equal.
  destruct (wf_lengths _ Hwf) as [_ Hln].
  pose proof (vec_at_lt _ _ _ Ha) as HI. rewrite Hln in HI.
  destruct Hwf as (_ & Enb & -> & _). rewrite Enb.
  unfold events_2qubit. rewrite Hsame.
  change combinations with [(0, (0, 0)); (1, (0, 1)); (2, (1, 0)); (3, (1, 1))].
  rewrite acc_terms_bind. cbn [foldl]. rewrite !acc_terms_bind. cbn [foldl].
  destruct (Z.testbit I (QuantumGate.target qg)) eqn:Hbit;
    repeat (rewrite (acc_terms_scan_same_qubit (coeff_ qc) (nqubit_ qc)) by (done || lia);
            rewrite Hbit;
            first [ rewrite bool_decide_eq_true_2 by (by split)
                  | rewrite bool_decide_eq_false_2
                      by (intros [E1 E2]; cbv in E1, E2; congruence) ]);
    done.
Qed.

End SameQubit.

(** ** The further properties at concrete inputs *)

Lemma Z_amplitude_laws : amplitude_laws (C:=Z).
Proof.
  repeat split; intros x; cbn [C0 C1 Cadd Cmul Z_amplitude]; lia.
Defined.

Lemma apply_gate_1qubit_spec_witness :
  wf qc_example ∧ scratch_clean qc_example ∧
  ∃ qc', apply_gate (M_gate 1) qc_example = Some qc'
    ∧ coeff (Basis.mk 2) qc' = Some (4 * 1 + 5 * 100)
    ∧ scratch_clean qc'.
Proof.
  split; [apply qc_example_wf|]. split; [done|].
  destruct (apply_gate_1qubit_spec (M_gate 1) qc_example)
    as (qc' & Hrun & _ & Hclean & _ & Hent).
  - intros x. apply Z.add_0_l.
  - apply qc_example_wf.
  - done.
  - done.
  - simpl. lia.
  - exists qc'. split; [done|]. split; [|done].
    destruct (Hent 2) as (c0 & c1 & Hc0 & Hc1 & Hnew); [simpl; lia|].
    vm_compute in Hc0, Hc1. injection Hc0 as <-. injection Hc1 as <-.
    exact Hnew.
Defined.

Lemma apply_gate_is_Some_witness :
  wf qc_example
  ∧ is_Some (apply_gate (M_gate 1) qc_example)
  ∧ ¬ is_Some (apply_gate (M_gate 2) qc_example).
Proof.
  split; [apply qc_example_wf|]. split.
  - apply (proj2 (apply_gate_is_Some (M_gate 1) qc_example qc_example_wf ltac:(done))).
    intros _. simpl. lia.
  - intros Hsome.
    pose proof (proj1 (apply_gate_is_Some (M_gate 2) qc_example qc_example_wf ltac:(done))
                  Hsome eq_refl) as Hlt.
    simpl in Hlt. lia.
Defined.

Lemma reachable_invariant_witness :
  ∃ qc qc' : QuantumComputer Z,
    QuantumComputer_new 2 = Some qc
    ∧ apply_gate (X_gate 0) qc = Some qc'
    ∧ coeff_ qc' = [0; 1; 0; 0]
    ∧ wf qc' ∧ scratch_clean qc'.
Proof.
  exists (mkQC 2 4 (Basis.mk <$> seqZ 0 4) [1; 0; 0; 0] [0; 0; 0; 0]),
         (mkQC 2 4 (Basis.mk <$> seqZ 0 4) [0; 1; 0; 0] [0; 0; 0; 0]).
  assert (QuantumComputer_new 2
          = Some (mkQC 2 4 (Basis.mk <$> seqZ 0 4) [1; 0; 0; 0] [0; 0; 0; 0]))
    as Hnew by (by vm_compute).
  assert (apply_gate (X_gate 0) (mkQC 2 4 (Basis.mk <$> seqZ 0 4) [1; 0; 0; 0] [0; 0; 0; 0])
          = Some (mkQC 2 4 (Basis.mk <$> seqZ 0 4) [0; 1; 0; 0] [0; 0; 0; 0]))
    as Hrun by (by vm_compute).
  split; [exact Hnew|]. split; [exact Hrun|]. split; [done|].
  apply reachable_invariant.
  eapply reachable_apply_gate; [|exact Hrun]. eapply reachable_new. exact Hnew.
Defined.

Lemma apply_circuit_is_Some_witness :
  wf qc_example
  ∧ is_Some (apply_circuit (mkCircuit [X_gate 0; CX_gate 1 0; M_gate 1]) qc_example)
  ∧ ¬ is_Some (apply_circuit (mkCircuit [X_gate 0; M_gate 2; M_gate 1]) qc_example).
Proof.
  split; [apply qc_example_wf|]. split.
  - apply (proj2 (apply_circuit_is_Some (mkCircuit [X_gate 0; CX_gate 1 0; M_gate 1])
                    qc_example qc_example_wf ltac:(by repeat constructor))).
    repeat constructor; intros Harity; simpl in *; lia.
  - intros Hsome.
    pose proof (proj1 (apply_circuit_is_Some (mkCircuit [X_gate 0; M_gate 2; M_gate 1])
                         qc_example qc_example_wf ltac:(by repeat constructor)) Hsome)
      as Hfits.
    apply Forall_cons in Hfits as [_ Hfits]. apply Forall_cons in Hfits as [Hfit _].
    specialize (Hfit eq_refl). simpl in Hfit. lia.
Defined.

Lemma apply_circuit_other_arity_zeroes_witness :
  wf qc_example ∧ scratch_clean qc_example ∧
  ∃ qc', apply_circuit (mkCircuit [X_gate 0; CX_gate 1 0; M_gate 1]) qc_example = Some qc'
         ∧ coeff_ qc' = [0; 0; 0; 0].
Proof.
  split; [apply qc_example_wf|]. split; [done|].
  destruct (apply_circuit_other_arity_zeroes
              (mkCircuit [X_gate 0; CX_gate 1 0; M_gate 1]) qc_example)
    as (qc' & Hrun & Hzero).
  - intros x. apply Z.add_0_l.
  - intros x. apply Z.mul_0_r.
  - apply qc_example_wf.
  - done.
  - by repeat constructor.
  - repeat constructor; intros Harity; simpl in *; lia.
  - apply Exists_cons_tl, Exists_cons_hd. done.
  - exists qc'. split; [done|]. exact Hzero.
Defined.

Lemma set_state_overwrites_witness :
  set_state [(Basis.mk 1, 5)] qc_example
  = Some (mkQC 2 4 (Basis.mk <$> seqZ 0 4) [0; 5; 0; 0] [0; 0; 0; 0])
  ∧ set_state [(Basis.mk 2, 7)] (mkQC 2 4 (Basis.mk <$> seqZ 0 4) [0; 5; 0; 0] [0; 0; 0; 0])
    = set_state [(Basis.mk 2, 7)] qc_example.
Proof.
  assert (set_state [(Basis.mk 1, 5)] qc_example
          = Some (mkQC 2 4 (Basis.mk <$> seqZ 0 4) [0; 5; 0; 0] [0; 0; 0; 0]))
    as Hrun by (by vm_compute).
  split; [exact Hrun|].
  exact (set_state_overwrites [(Basis.mk 1, 5)] [(Basis.mk 2, 7)] qc_example _ Hrun).
Defined.

Lemma coeff_is_Some_witness :
  wf qc_example
  ∧ is_Some (coeff (Basis.mk 3) qc_example)
  ∧ ¬ is_Some (coeff (Basis.mk 4) qc_example).
Proof.
  split; [apply qc_example_wf|]. split.
  - apply (proj2 (coeff_is_Some (Basis.mk 3) qc_example qc_example_wf)). simpl. lia.
  - intros Hsome.
    pose proof (proj1 (coeff_is_Some (Basis.mk 4) qc_example qc_example_wf) Hsome) as Hlt.
    simpl in Hlt. lia.
Defined.

Lemma insert_injective_witness :
  Basis.insert 1 (Basis.mk 5) = Some (Basis.mk 11)
  ∧ Basis.insert 1 (Basis.mk (Z.lor 4 1)) = Some (Basis.mk 11)
  ∧ 5 = Z.lor 4 1
  ∧ Basis.insert 1 (Basis.mk 6) ≠ Some (Basis.mk 11).
Proof.
  assert (Basis.insert 1 (Basis.mk 5) = Some (Basis.mk 11)) as H5 by (by vm_compute).
  assert (Basis.insert 1 (Basis.mk (Z.lor 4 1)) = Some (Basis.mk 11)) as H41
    by (by vm_compute).
  split; [exact H5|]. split; [exact H41|]. split.
  - apply (insert_injective 1 5 (Z.lor 4 1)).
    + unfold int_bits. lia.
    + split; by vm_compute.
    + split; by vm_compute.
    + by rewrite H5, H41.
  - intros H6. assert (5 = 6) as Habs; [|lia].
    apply (insert_injective 1 5 6).
    + unfold int_bits. lia.
    + split; by vm_compute.
    + split; by vm_compute.
    + by rewrite H5, H6.
Defined.

Lemma insert_set_bit_enumerates_witness :
  ∃ K, 0 ≤ K < 4
       ∧ ∃ b, Basis.insert 1 (Basis.mk K) = Some b
              ∧ Basis.set_bit 1 true b = Basis.mk 6.
Proof.
  destruct (insert_set_bit_enumerates 3 1 true) as [_ Honto].
  - lia.
  - unfold int_bits. lia.
  - unfold basis_bits. lia.
  - destruct (Honto 6) as (K & HK & Hb & _); [simpl; lia|reflexivity|].
    exists K. split; [exact HK|exact Hb].
Defined.

Lemma str_injective_witness :
  Basis.str 3 (Basis.mk 5) = Some "|101>"%string
  ∧ Basis.str 3 (Basis.mk (Z.lor 4 1)) = Some "|101>"%string
  ∧ Basis.mk 5 = Basis.mk (Z.lor 4 1)
  ∧ Basis.str 3 (Basis.mk 6) ≠ Some "|101>"%string.
Proof.
  assert (Basis.str 3 (Basis.mk 5) = Some "|101>"%string) as H5 by (by vm_compute).
  assert (Basis.str 3 (Basis.mk (Z.lor 4 1)) = Some "|101>"%string) as H41
    by (by vm_compute).
  split; [exact H5|]. split; [exact H41|]. split.
  - apply (str_injective 3).
    + split; by vm_compute.
    + split; by vm_compute.
    + split; by vm_compute.
    + by rewrite H5, H41.
  - intros H6. assert (Basis.mk 5 = Basis.mk 6) as Habs; [|done].
    apply (str_injective 3).
    + split; by vm_compute.
    + split; by vm_compute.
    + split; by vm_compute.
    + by rewrite H5, H6.
Defined.

Lemma str_ground_state_witness :
  ∃ qc : QuantumComputer Z,
    QuantumComputer_new 2 = Some qc
    ∧ str (1 : @threshold Z Z_printing) qc = Some ["|00>"%string].
Proof.
  destruct (str_ground_state (C:=Z) (1 : @threshold Z Z_printing) 2)
    as (qc & ket & Hnew & Hket & Hstr).
  - unfold basis_bits. lia.
  - done.
  - done.
  - exists qc. split; [done|].
    vm_compute in Hket. injection Hket as <-. exact Hstr.
Defined.

Lemma apply_gate_identity_witness :
  wf qc_example ∧ scratch_clean qc_example
  ∧ apply_gate (I_gate 1) qc_example = Some qc_example.
Proof.
  split; [apply qc_example_wf|]. split; [done|].
  apply (apply_gate_identity (I_gate 1) qc_example).
  - exact Z_amplitude_laws.
  - apply qc_example_wf.
  - done.
  - done.
  - simpl. lia.
  - by repeat split.
Defined.

Lemma apply_gate_bit_flip_witness :
  wf qc_example ∧ scratch_clean qc_example ∧
  ∃ qc', apply_gate (X_gate 0) qc_example = Some qc'
    ∧ coeff (Basis.mk 2) qc' = Some 1000
    ∧ apply_gate (X_gate 0) qc' = Some qc_example.
Proof.
  split; [apply qc_example_wf|]. split; [done|].
  destruct (apply_gate_bit_flip (X_gate 0) qc_example) as (qc' & Hrun & Hent & Hback).
  - exact Z_amplitude_laws.
  - apply qc_example_wf.
  - done.
  - done.
  - simpl. lia.
  - by repeat split.
  - exists qc'. split; [done|]. split; [|done].
    rewrite (Hent 2) by (simpl; lia). by vm_compute.
Defined.

Lemma apply_1qubit_gate_insertion_agrees_witness :
  wf qc_example ∧
  ∃ qc', apply_1qubit_gate (M_gate 1) qc_example = Some qc'
         ∧ apply_1qubit_gate_insertion (M_gate 1) qc_example = Some qc'
         ∧ new_coeff_ qc' = [2 * 1 + 3 * 100; 2 * 10 + 3 * 1000;
                             4 * 1 + 5 * 100; 4 * 10 + 5 * 1000].
Proof.
  split; [apply qc_example_wf|].
  destruct (apply_1qubit_gate_insertion_agrees (M_gate 1) qc_example)
    as (qc' & Hdense & Hins).
  - apply qc_example_wf.
  - simpl. lia.
  - unfold int_bits. simpl. lia.
  - exists qc'. split; [done|]. split; [done|].
    vm_compute in Hdense. injection Hdense as <-. by vm_compute.
Defined.

Lemma apply_2qubit_gate_cnot_witness :
  wf qc_example ∧ scratch_clean qc_example ∧
  ∃ qc', apply_2qubit_gate (CNOT_gate 1 0) qc_example = Some qc'
    ∧ vec_at (new_coeff_ qc') 1 = Some 10
    ∧ vec_at (new_coeff_ qc') 2 = Some 1000
    ∧ vec_at (new_coeff_ qc') 3 = Some 100.
Proof.
  split; [apply qc_example_wf|]. split; [done|].
  destruct (apply_2qubit_gate_cnot (CNOT_gate 1 0) qc_example) as (qc' & Hrun & _ & Hent).
  - exact Z_amplitude_laws.
  - apply qc_example_wf.
  - done.
  - simpl. lia.
  - simpl. lia.
  - done.
  - intros i j _ _. reflexivity.
  - exists qc'. split; [done|].
    split; [|split]; (rewrite Hent by (simpl; lia)); by vm_compute.
Defined.

Lemma apply_2qubit_gate_same_qubit_witness :
  wf qc_example ∧
  ∃ qc', apply_2qubit_gate (CX_gate 1 1) qc_example = Some qc'
    ∧ vec_at (new_coeff_ qc') 2 = Some (0 + 5 * 1 + 8 * 100 + 13 * 1 + 16 * 100).
Proof.
  split; [apply qc_example_wf|].
  destruct (apply_2qubit_gate_same_qubit (CX_gate 1 1) qc_example) as (qc' & Hrun & _ & Hent).
  - apply qc_example_wf.
  - done.
  - simpl. lia.
  - exists qc'. split; [done|].
    rewrite (Hent 2 0 eq_refl). by vm_compute.
Defined.

Lemma apply_2qubit_gate_is_Some_witness :
  wf qc_example
  ∧ is_Some (apply_2qubit_gate (CX_gate 1 0) qc_example)
  ∧ ¬ is_Some (apply_2qubit_gate (CX_gate 2 0) qc_example).
Proof.
  split; [apply qc_example_wf|]. split.
  - apply (proj2 (apply_2qubit_gate_is_Some (CX_gate 1 0) qc_example qc_example_wf
                    ltac:(done) ltac:(done))).
    simpl. lia.
  - intros Hsome.
    pose proof (proj1 (apply_2qubit_gate_is_Some (CX_gate 2 0) qc_example qc_example_wf
                         ltac:(done) ltac:(done)) Hsome) as [Hc _].
    simpl in Hc. lia.
Defined.
